(** * The viewer's coroutine registry, inventory listener and RLV chat hook

    A shallow embedding of
    - [indra/llcommon/llcoros.h]            (class [LLCoros]),
    - [indra/newview/llinventorylistener.cpp] ([InvResultSet::getSlice],
      [LLFilteredCollector]),
    - [indra/newview/rlvhandler.cpp]        ([RlvHandler::handleSimulatorChat]),
    together with the properties the specification states about them. *)

From Stdlib Require Import ZArith Lia Ascii.
From stdpp Require Import gmap strings list pretty.

Set Warnings "-register-all".

(** ** 32-bit signed integers ([int], [S32], [LLSD::Integer]) *)

Module Int32.
Local Open Scope Z_scope.

Definition INT_MIN : Z := - 2 ^ 31.
Definition INT_MAX : Z := 2 ^ 31 - 1.

Definition in_range (z : Z) : Prop := INT_MIN <= z <= INT_MAX.

(** Two's complement wrap-around of a mathematical integer. *)
Definition wrap (z : Z) : Z := (z + 2 ^ 31) mod 2 ^ 32 - 2 ^ 31.

Definition add (a b : Z) : Z := wrap (a + b).

Lemma wrap_in_range z : in_range (wrap z).
Proof.
  unfold in_range, wrap, INT_MIN, INT_MAX.
  pose proof (Z.mod_pos_bound (z + 2 ^ 31) (2 ^ 32) ltac:(lia)). lia.
Qed.

Lemma wrap_id z : in_range z -> wrap z = z.
Proof.
  unfold in_range, wrap, INT_MIN, INT_MAX. intros Hz.
  rewrite Z.mod_small by lia. lia.
Qed.

Lemma add_exact a b : in_range (a + b) -> add a b = a + b.
Proof. apply wrap_id. Qed.

(** Past [INT_MAX] the sum of two [int]s comes out negative. *)
Lemma add_overflow_neg a b :
  in_range a -> in_range b -> INT_MAX < a + b -> add a b < 0.
Proof.
  unfold in_range, add, wrap, INT_MIN, INT_MAX. intros Ha Hb Hab.
  replace (a + b + 2 ^ 31) with ((a + b - 2 ^ 31) + 1 * 2 ^ 32) by lia.
  rewrite Z.mod_add by lia. rewrite Z.mod_small by lia. lia.
Qed.
End Int32.

(** ** LLSD values *)

Module LLSD.
(** Modelled from the spec: [LLSD] is declared in [llcommon/llsd.h], outside
    the files covered here; the kinds of value that the listener tells
    apart are represented, with maps as association lists. *)
Inductive t : Type :=
| Undef
| Boolean (b : bool)
| Integer (i : Z)
| Str (s : string)
| Array (l : list t)
| Map (m : list (string * t)).

Definition emptyArray : list t := [].

Definition isInteger (v : t) : bool :=
  match v with Integer _ => true | _ => false end.

(** [data.has(key)] and [data[key]] on a map; a key that is absent, or
    any lookup in a value that is no map, reads as [Undef]. *)
Fixpoint assoc (key : string) (m : list (string * t)) : option t :=
  match m with
  | [] => None
  | (k, v) :: m' => if String.eqb k key then Some v else assoc key m'
  end.

Definition has (v : t) (key : string) : bool :=
  match v with
  | Map m => match assoc key m with Some _ => true | None => false end
  | _ => false
  end.

Definition get (v : t) (key : string) : t :=
  match v with
  | Map m => default Undef (assoc key m)
  | _ => Undef
  end.

(** [std::vector::resize]: truncate, or pad with undefined values. *)
Definition resize (l : list t) (n : nat) : list t :=
  take n l ++ replicate (n - length l) Undef.

(** Modelled from the spec: [result[i] = v] on an LLSD array.  Writing at
    or past the end first grows the array to [i + 1] entries, which is what
    getSlice counts on ("right away expand the result array to the size
    we'll need"). *)
Definition array_assign (l : list t) (i : nat) (v : t) : list t :=
  let l' := if (length l <=? i)%nat then resize l (S i) else l in
  <[i := v]> l'.

Lemma length_array_assign l i v :
  length (array_assign l i v) = (length l `max` S i)%nat.
Proof.
  unfold array_assign, resize. rewrite length_insert.
  destruct (Nat.leb_spec (length l) i).
  - rewrite length_app, length_take, length_replicate. lia.
  - lia.
Qed.

Lemma array_assign_in_bounds l i v :
  (i < length l)%nat -> array_assign l i v = <[i := v]> l.
Proof.
  intros Hi. unfold array_assign.
  destruct (Nat.leb_spec (length l) i); [lia | done].
Qed.
End LLSD.

(** ** llinventorylistener.cpp: result sets and their slices *)

Module InventoryListener.
Local Open Scope Z_scope.

Definition MAX_ITEM_LIMIT : Z := 100.

(** Modelled from the spec: [llclamp] lives in [llcommon/lldefs.h], which is
    outside the files covered here.  It forces [a] into [[minval, maxval]], testing
    the lower bound first. *)
Definition llclamp (a minval maxval : Z) : Z :=
  if a <? minval then minval
  else if a >? maxval then maxval
  else a.

(** The abstract base class [InvResultSet]: the two pure virtual methods
    and the debugging name. *)
Record InvResultSet : Type := {
  getLength : Z;
  getSingle : Z -> LLSD.t;
  mName : string
}.

(** [for (int i = start; i < end; ++i) result[i] = getSingle(i);]
    [n] bounds the number of iterations still to run. *)
Fixpoint getSlice_loop (self : InvResultSet) (n : nat) (i end_ : Z)
    (result : list LLSD.t) : list LLSD.t :=
  match n with
  | O => result
  | S n' =>
      if i <? end_
      then getSlice_loop self n' (Int32.add i 1) end_
             (LLSD.array_assign result (Z.to_nat i) (getSingle self i))
      else result
  end.

Definition getSlice (self : InvResultSet) (index count : Z) : LLSD.t :=
  let length := getLength self in
  let start := llclamp index 0 length in
  let end_ :=
    llclamp (Int32.add index (llclamp count 0 MAX_ITEM_LIMIT)) 0 length in
  let result := LLSD.emptyArray in
  if end_ >? start
  then
    let result := LLSD.array_assign result (Z.to_nat (end_ - 1)) LLSD.Undef in
    LLSD.Array (getSlice_loop self (Z.to_nat (end_ - start)) start end_ result)
  else LLSD.Array result.

(** Modelled from the spec: [asInteger] of a request field; the conversion
    of non-integer LLSD values ([llsd.cpp], outside the files covered here) is a
    parameter. *)
Definition asInteger (conv : LLSD.t -> Z) (v : LLSD.t) : Z :=
  match v with
  | LLSD.Integer i => i
  | _ => conv v
  end.

(** [LLInventoryListener::getSlice]: the slice that is sent as the reply's
    ["slice"] entry, for the result set [result] that the request's
    ["result"] key designates. *)
Definition listener_getSlice (conv : LLSD.t -> Z) (result : InvResultSet)
    (data : LLSD.t) : LLSD.t :=
  let count :=
    if LLSD.has data "count"
    then asInteger conv (LLSD.get data "count")
    else MAX_ITEM_LIMIT in
  getSlice result (asInteger conv (LLSD.get data "index")) count.

(** A result set of five entries, for the examples below. *)
Definition sample_set : InvResultSet :=
  {| getLength := 5; getSingle := fun i => LLSD.Integer (10 + i);
     mName := "items" |}.

(** *** Facts about [llclamp] *)

Lemma llclamp_bounds a lo hi : lo <= hi -> lo <= llclamp a lo hi <= hi.
Proof.
  intros Hlh. unfold llclamp.
  destruct (Z.ltb_spec a lo); [lia |].
  destruct (Z.gtb_spec a hi); lia.
Qed.

Lemma llclamp_inside a lo hi : lo <= a <= hi -> llclamp a lo hi = a.
Proof.
  intros Ha. unfold llclamp.
  destruct (Z.ltb_spec a lo); [lia |].
  destruct (Z.gtb_spec a hi); lia.
Qed.

Lemma llclamp_below a lo hi : a < lo -> llclamp a lo hi = lo.
Proof. intros Ha. unfold llclamp. destruct (Z.ltb_spec a lo); lia. Qed.

Lemma llclamp_above a lo hi : lo <= hi -> hi <= a -> llclamp a lo hi = hi.
Proof.
  intros Hlh Ha. unfold llclamp.
  destruct (Z.ltb_spec a lo); [lia |].
  destruct (Z.gtb_spec a hi); lia.
Qed.

(** *** The filling loop *)

(** The bound on the iterations is no restriction: any larger bound gives
    the same array, the loop having left through its test [i < end]. *)
Lemma getSlice_loop_enough self n : forall i end_ result,
  0 <= i -> end_ <= Int32.INT_MAX ->
  (Z.to_nat (end_ - i) <= n)%nat ->
  getSlice_loop self n i end_ result =
  getSlice_loop self (Z.to_nat (end_ - i)) i end_ result.
Proof.
  induction n as [|n IH]; intros i end_ result Hi Hmax Hn.
  - replace (Z.to_nat (end_ - i)) with 0%nat by lia. reflexivity.
  - destruct (Z.to_nat (end_ - i)) as [|m] eqn:Hm.
    + simpl. destruct (Z.ltb_spec i end_); [lia | reflexivity].
    + simpl. destruct (Z.ltb_spec i end_); [| reflexivity].
      assert (Hadd : Int32.add i 1 = i + 1).
      { apply Int32.add_exact.
        unfold Int32.in_range, Int32.INT_MIN, Int32.INT_MAX in *. lia. }
      rewrite Hadd, IH by lia.
      replace (Z.to_nat (end_ - (i + 1))) with m by lia. reflexivity.
Qed.

(** What the loop maintains: the array keeps its length, the entries it has
    passed hold the result-set entries, everything else is as before. *)
Lemma getSlice_loop_spec self n i end_ result :
  0 <= i -> i <= end_ -> end_ <= Int32.INT_MAX ->
  Z.to_nat (end_ - i) = n ->
  (Z.to_nat end_ <= length result)%nat ->
  let out := getSlice_loop self n i end_ result in
  length out = length result /\
  (forall j, i <= j < end_ -> out !! Z.to_nat j = Some (getSingle self j)) /\
  (forall k : nat, (k < Z.to_nat i)%nat \/ (Z.to_nat end_ <= k)%nat ->
     out !! k = result !! k).
Proof.
  revert i result. induction n as [|n IH]; intros i result Hi Hie Hmax Hn Hlen.
  - simpl. split; [done |]. split; [| done].
    intros j Hj. lia.
  - simpl. destruct (Z.ltb_spec i end_) as [Hlt | Hge]; [| lia].
    assert (Hadd : Int32.add i 1 = i + 1).
    { apply Int32.add_exact. unfold Int32.in_range, Int32.INT_MIN, Int32.INT_MAX in *. lia. }
    rewrite Hadd.
    assert (Hin : (Z.to_nat i < length result)%nat) by lia.
    rewrite LLSD.array_assign_in_bounds by exact Hin.
    destruct (IH (i + 1) (<[Z.to_nat i := getSingle self i]> result))
      as (Hl & Hfill & Hrest); try lia.
    { rewrite length_insert. lia. }
    split; [by rewrite Hl, length_insert |]. split.
    + intros j Hj. destruct (decide (j = i)) as [-> | Hne].
      * rewrite Hrest by lia. by rewrite list_lookup_insert_eq.
      * apply Hfill. lia.
    + intros k Hk. rewrite Hrest by lia.
      apply list_lookup_insert_ne. lia.
Qed.

Lemma array_assign_empty_undef (n k : nat) :
  (k <= n)%nat ->
  LLSD.array_assign LLSD.emptyArray n LLSD.Undef !! k = Some LLSD.Undef.
Proof.
  intros Hk.
  assert (Heq : LLSD.array_assign LLSD.emptyArray n LLSD.Undef =
                <[n := LLSD.Undef]> (replicate (S n) LLSD.Undef)).
  { unfold LLSD.array_assign, LLSD.resize, LLSD.emptyArray.
    change (length (@nil LLSD.t)) with 0%nat.
    rewrite take_nil, Nat.sub_0_r. reflexivity. }
  rewrite Heq. destruct (decide (k = n)) as [-> | Hne].
  - apply list_lookup_insert_eq. rewrite length_replicate. lia.
  - rewrite list_lookup_insert_ne by done.
    apply lookup_replicate_2. lia.
Qed.

(** The bounds computed by the code agree with the mathematical ones as
    soon as the sum [index + llclamp count 0 MAX_ITEM_LIMIT] fits an [int];
    when it does not, [start] already sits at the end of any result set of
    at most [INT_MAX - MAX_ITEM_LIMIT] entries and both readings give an
    empty range. *)
Lemma getSlice_cases self index count :
  Int32.in_range index ->
  0 <= getLength self <= Int32.INT_MAX ->
  getLength self <= Int32.INT_MAX - MAX_ITEM_LIMIT \/
    index + llclamp count 0 MAX_ITEM_LIMIT <= Int32.INT_MAX ->
  let L := getLength self in
  let start := llclamp index 0 L in
  let end_ := llclamp (index + llclamp count 0 MAX_ITEM_LIMIT) 0 L in
  let end_code :=
    llclamp (Int32.add index (llclamp count 0 MAX_ITEM_LIMIT)) 0 L in
  end_code = end_ \/ (end_code <= start /\ end_ <= start).
Proof.
  intros Hidx HL Hfit L start end_ end_code.
  pose proof (llclamp_bounds count 0 MAX_ITEM_LIMIT ltac:(unfold MAX_ITEM_LIMIT; lia)) as Hc.
  destruct (Z_le_gt_dec (index + llclamp count 0 MAX_ITEM_LIMIT) Int32.INT_MAX)
    as [Hok | Hover].
  - left. subst end_code end_. rewrite Int32.add_exact; [done |].
    unfold Int32.in_range, Int32.INT_MIN, Int32.INT_MAX in *. lia.
  - right. destruct Hfit as [Hsmall | Hok]; [| lia].
    assert (Hc' : Int32.in_range (llclamp count 0 MAX_ITEM_LIMIT)).
    { unfold Int32.in_range, Int32.INT_MIN, Int32.INT_MAX, MAX_ITEM_LIMIT in *. lia. }
    pose proof (Int32.add_overflow_neg _ _ Hidx Hc' ltac:(lia)) as Hneg.
    subst end_code end_ start L.
    rewrite (llclamp_below _ 0) by exact Hneg.
    rewrite (llclamp_above index) by (unfold MAX_ITEM_LIMIT in *; lia).
    rewrite (llclamp_above (index + _)) by (unfold MAX_ITEM_LIMIT in *; lia).
    lia.
Qed.

(** C8.  For a result set of length [L] and [int]s [index], [count], with
    [start = clamp(index, 0, L)] and
    [end = clamp(index + clamp(count, 0, 100), 0, L)]: [getSlice] returns the
    empty array when [end <= start]; otherwise it returns an array of
    length [end] whose entries [start .. end-1] are [getSingle(i)] and whose
    entries before [start] are left undefined.  At most 100 entries are
    populated, each at its original result-set index. *)
Theorem getSlice_spec self index count :
  Int32.in_range index -> Int32.in_range count ->
  0 <= getLength self <= Int32.INT_MAX ->
  getLength self <= Int32.INT_MAX - MAX_ITEM_LIMIT \/
    index + llclamp count 0 MAX_ITEM_LIMIT <= Int32.INT_MAX ->
  let L := getLength self in
  let start := llclamp index 0 L in
  let end_ := llclamp (index + llclamp count 0 100) 0 L in
  end_ - start <= 100 /\
  (end_ <= start -> getSlice self index count = LLSD.Array []) /\
  (start < end_ ->
     exists l, getSlice self index count = LLSD.Array l /\
       length l = Z.to_nat end_ /\
       (forall i, start <= i < end_ ->
          l !! Z.to_nat i = Some (getSingle self i)) /\
       (forall i, 0 <= i < start -> l !! Z.to_nat i = Some LLSD.Undef)).
Proof.
  intros Hidx Hcnt HL Hfit L start end_.
  pose proof (getSlice_cases self index count Hidx HL Hfit) as Hcases.
  cbv zeta in Hcases.
  set (end_code :=
         llclamp (Int32.add index (llclamp count 0 MAX_ITEM_LIMIT)) 0
           (getLength self)) in Hcases.
  change (llclamp (index + llclamp count 0 MAX_ITEM_LIMIT) 0 (getLength self))
    with end_ in Hcases.
  change (llclamp index 0 (getLength self)) with start in Hcases.
  pose proof (llclamp_bounds count 0 100 ltac:(lia)) as Hc.
  pose proof (llclamp_bounds index 0 L ltac:(subst L; lia)) as Hs.
  pose proof (llclamp_bounds (index + llclamp count 0 100) 0 L
                ltac:(subst L; lia)) as He.
  fold start in Hs. fold end_ in He.
  assert (Hunf : getSlice self index count =
                 if end_code >? start
                 then LLSD.Array
                        (getSlice_loop self (Z.to_nat (end_code - start)) start
                           end_code
                           (LLSD.array_assign LLSD.emptyArray
                              (Z.to_nat (end_code - 1)) LLSD.Undef))
                 else LLSD.Array LLSD.emptyArray) by reflexivity.
  split; [| split].
  - subst start end_. unfold llclamp in *.
    repeat match goal with
           | |- context [?a <? ?b] => destruct (Z.ltb_spec a b)
           | |- context [?a >? ?b] => destruct (Z.gtb_spec a b)
           | H : context [?a <? ?b] |- _ => destruct (Z.ltb_spec a b)
           | H : context [?a >? ?b] |- _ => destruct (Z.gtb_spec a b)
           end; lia.
  - intros Hempty. rewrite Hunf.
    destruct (Z.gtb_spec end_code start); [lia | done].
  - intros Hlt. destruct Hcases as [Heq | [_ Hle]]; [| lia].
    rewrite Hunf, Heq.
    destruct (Z.gtb_spec end_ start); [| lia].
    set (result := LLSD.array_assign LLSD.emptyArray (Z.to_nat (end_ - 1)) LLSD.Undef).
    assert (Hlen : length result = Z.to_nat end_).
    { subst result. rewrite LLSD.length_array_assign. simpl. lia. }
    destruct (getSlice_loop_spec self (Z.to_nat (end_ - start)) start end_ result)
      as (Hl & Hfill & Hrest); try lia.
    eexists. split; [reflexivity |]. split; [lia |]. split; [exact Hfill |].
    intros i Hi. rewrite Hrest by lia.
    subst result. apply array_assign_empty_undef. lia.
Qed.

(** The example of the source comment, "with a result set containing 5
    entries, getSlice(-2, 5) will adjust start to 0 and end to 3". *)
Example getSlice_negative_index :
  getSlice sample_set (-2) 5 =
  LLSD.Array [LLSD.Integer 10; LLSD.Integer 11; LLSD.Integer 12].
Proof. reflexivity. Qed.

(** Entries keep their result-set positions: the slice [3, 5) comes back
    as a five-entry array whose first three entries are undefined. *)
Example getSlice_keeps_positions :
  getSlice sample_set 3 100 =
  LLSD.Array [LLSD.Undef; LLSD.Undef; LLSD.Undef;
              LLSD.Integer 13; LLSD.Integer 14].
Proof. reflexivity. Qed.

(** A request without ["count"] asks for [MAX_ITEM_LIMIT] entries. *)
Lemma listener_getSlice_default conv result data :
  LLSD.has data "count" = false ->
  listener_getSlice conv result data =
  getSlice result (asInteger conv (LLSD.get data "index")) MAX_ITEM_LIMIT.
Proof. intros H. unfold listener_getSlice. by rewrite H. Qed.

Example listener_getSlice_request :
  listener_getSlice (fun _ => 0) sample_set
    (LLSD.Map [("result", LLSD.Integer 1); ("index", LLSD.Integer 4)]) =
  LLSD.Array [LLSD.Undef; LLSD.Undef; LLSD.Undef; LLSD.Undef; LLSD.Integer 14].
Proof. reflexivity. Qed.

Lemma getSlice_spec_witness :
  exists l, getSlice sample_set 3 100 = LLSD.Array l /\
    length l = 5%nat /\
    l !! 4%nat = Some (LLSD.Integer 14) /\ l !! 0%nat = Some LLSD.Undef.
Proof.
  assert (H1 : Int32.in_range 3) by (unfold Int32.in_range, Int32.INT_MIN, Int32.INT_MAX; lia).
  assert (H2 : Int32.in_range 100) by (unfold Int32.in_range, Int32.INT_MIN, Int32.INT_MAX; lia).
  assert (H3 : 0 <= getLength sample_set <= Int32.INT_MAX)
    by (unfold Int32.INT_MAX; simpl; lia).
  assert (H4 : getLength sample_set <= Int32.INT_MAX - MAX_ITEM_LIMIT \/
               3 + llclamp 100 0 MAX_ITEM_LIMIT <= Int32.INT_MAX)
    by (left; unfold Int32.INT_MAX, MAX_ITEM_LIMIT; simpl; lia).
  pose proof (getSlice_spec sample_set 3 100 H1 H2 H3 H4) as Hspec.
  cbv zeta in Hspec. destruct Hspec as (_ & _ & Hfull).
  destruct Hfull as (l & Hl & Hlen & Hfill & Hundef); [by vm_compute |].
  exists l. split; [exact Hl |]. split; [exact Hlen |]. split.
  - apply (Hfill 4). vm_compute. split; [discriminate | reflexivity].
  - apply (Hundef 0). vm_compute. split; [discriminate | reflexivity].
Defined.
End InventoryListener.

(** ** llinventorylistener.cpp: the filtered collector *)

Module InventoryCollector.
Local Open Scope Z_scope.

(** Modelled from the spec: [LLAssetType::EType] is declared in
    [llassettype.h], outside the files covered here; the two enumerators the
    collector names are kept apart from all the others. *)
Inductive EType : Type :=
| AT_UNKNOWN
| AT_CATEGORY
| AT_OTHER (code : Z).

#[global] Instance EType_eq_dec : EqDecision EType.
Proof. solve_decision. Defined.

Inductive EFilterLink : Type :=
| INCLUDE_LINKS  (* show links too *)
| EXCLUDE_LINKS  (* don't show links *)
| ONLY_LINKS.    (* only show links *)

#[global] Instance EFilterLink_eq_dec : EqDecision EFilterLink.
Proof. solve_decision. Defined.

(** What the collector reads of a category and of an item. *)
Record LLInventoryCategory : Type := {
  cat_getName : string;
  cat_getIsLinkType : bool
}.

Record LLInventoryItem : Type := {
  item_getName : string;
  item_getDescription : string;
  item_getType : EType;
  item_getIsLinkType : bool
}.

(** The functor is called as [add(cat, NULL)] or [add(NULL, item)]. *)
Inductive candidate : Type :=
| OfCat (cat : LLInventoryCategory)
| OfItem (item : LLInventoryItem).

Definition cat_ptr (x : candidate) : option LLInventoryCategory :=
  match x with OfCat c => Some c | OfItem _ => None end.

Definition item_ptr (x : candidate) : option LLInventoryItem :=
  match x with OfCat _ => None | OfItem i => Some i end.

Record LLFilteredCollector : Type := {
  mType : EType;
  mName : string;
  mDesc : string;
  mLinkFilter : EFilterLink;
  mItemLimit : Z;
  mItemCount : Z
}.

(** [hay.find(needle) != std::string::npos] *)
Definition found (needle hay : string) : bool :=
  match String.index 0 needle hay with Some _ => true | None => false end.

Definition empty (s : string) : bool := String.eqb s "".

Section Collector.
(** Conversions of request fields that live outside the sources:
    [LLSD::asString], [LLAssetType::lookup] and the comparison of an LLSD
    value with a string literal. *)
Variable asString : LLSD.t -> string.
Variable lookup : LLSD.t -> EType.
Variable eq_literal : LLSD.t -> string -> bool.

(** [LLFilteredCollector::LLFilteredCollector(LLSD const &data)] *)
Definition make (data : LLSD.t) : LLFilteredCollector :=
  let mType := AT_UNKNOWN in
  let mLinkFilter := INCLUDE_LINKS in
  let mItemLimit := 0 in
  let mItemCount := 0 in
  let mName := asString (LLSD.get data "name") in
  let mDesc := asString (LLSD.get data "desc") in
  let mType :=
    if LLSD.has data "type" then lookup (LLSD.get data "type") else mType in
  let mLinkFilter :=
    if LLSD.has data "filter_links"
    then
      if eq_literal (LLSD.get data "filter_links") "EXCLUDE_LINKS"
      then EXCLUDE_LINKS
      else if eq_literal (LLSD.get data "filter_links") "ONLY_LINKS"
      then ONLY_LINKS
      else mLinkFilter
    else mLinkFilter in
  let mItemLimit :=
    match LLSD.get data "limit" with
    | LLSD.Integer n => Z.max n 1
    | _ => mItemLimit
    end in
  {| mType := mType; mName := mName; mDesc := mDesc;
     mLinkFilter := mLinkFilter; mItemLimit := mItemLimit;
     mItemCount := mItemCount |}.
End Collector.

(** [mItemLimit == 0] means unlimited. *)
Definition exceedsLimit (self : LLFilteredCollector) : bool :=
  negb (mItemLimit self =? 0) && (mItemLimit self <=? mItemCount self).

Definition checkagainstType (self : LLFilteredCollector)
    (cat : option LLInventoryCategory) (item : option LLInventoryItem) : bool :=
  if decide (mType self = AT_UNKNOWN) then true
  else if bool_decide (is_Some cat) && bool_decide (mType self = AT_CATEGORY)
  then true
  else match item with
       | Some i => if decide (item_getType i = mType self) then true else false
       | None => false
       end.

Definition checkagainstNameDesc (self : LLFilteredCollector)
    (cat : option LLInventoryCategory) (item : option LLInventoryItem) : bool :=
  if bool_decide (is_Some cat) && negb (empty (mDesc self)) then false
  else
    let name := match cat with Some c => cat_getName c | None => "" end in
    let name := match item with Some i => item_getName i | None => name end in
    let passed :=
      match item with
      | Some i =>
          empty (mDesc self) || found (mDesc self) (item_getDescription i)
      | None => true
      end in
    passed && (empty (mName self) || found (mName self) name).

(** [cat ? cat->getIsLinkType() : item->getIsLinkType()]; one of the two
    pointers is always set (see [candidate]). *)
Definition checkagainstLinks (self : LLFilteredCollector) (x : candidate) : bool :=
  let is_link :=
    match x with
    | OfCat c => cat_getIsLinkType c
    | OfItem i => item_getIsLinkType i
    end in
  if is_link && bool_decide (mLinkFilter self = EXCLUDE_LINKS) then false
  else if negb is_link && bool_decide (mLinkFilter self = ONLY_LINKS) then false
  else true.

Definition passes (self : LLFilteredCollector) (x : candidate) : bool :=
  let passed := checkagainstType self (cat_ptr x) (item_ptr x) in
  let passed := passed && checkagainstNameDesc self (cat_ptr x) (item_ptr x) in
  passed && checkagainstLinks self x.

(** [++mItemCount] *)
Definition count_one (self : LLFilteredCollector) : LLFilteredCollector :=
  {| mType := mType self; mName := mName self; mDesc := mDesc self;
     mLinkFilter := mLinkFilter self; mItemLimit := mItemLimit self;
     mItemCount := Int32.add (mItemCount self) 1 |}.

(** [LLFilteredCollector::operator()] *)
Definition call (self : LLFilteredCollector) (x : candidate)
    : bool * LLFilteredCollector :=
  let passed := passes self x in
  if passed then (passed, count_one self) else (passed, self).

(** Modelled from the spec: the loop that drives the functor,
    [LLInventoryModel::collectDescendentsIf], is outside the files covered here.  It
    offers each candidate to the functor, keeps those that pass, and leaves
    off as soon as [exceedsLimit()] answers true. *)
Fixpoint collect (add : LLFilteredCollector) (cands : list candidate)
    (kept : list candidate) : list candidate * LLFilteredCollector :=
  match cands with
  | [] => (kept, add)
  | x :: rest =>
      let '(passed, add') := call add x in
      let kept' := if passed then kept ++ [x] else kept in
      if exceedsLimit add' then (kept', add') else collect add' rest kept'
  end.

(** An item that every filter lets through, for the examples below. *)
Definition note (name : string) : candidate :=
  OfItem {| item_getName := name; item_getDescription := "";
            item_getType := AT_OTHER 7; item_getIsLinkType := false |}.

(** *** The limit *)

Lemma passes_count_one self : passes (count_one self) = passes self.
Proof. reflexivity. Qed.

Lemma exceedsLimit_unlimited self : mItemLimit self = 0 -> exceedsLimit self = false.
Proof. intros H. unfold exceedsLimit. by rewrite H. Qed.

Lemma exceedsLimit_limited self :
  mItemLimit self <> 0 ->
  exceedsLimit self = (mItemLimit self <=? mItemCount self).
Proof.
  intros H. unfold exceedsLimit.
  destruct (Z.eqb_spec (mItemLimit self) 0); [done | reflexivity].
Qed.

(** With no limit every passing candidate is kept. *)
Lemma collect_unlimited cands : forall add kept,
  mItemLimit add = 0 ->
  fst (collect add cands kept) = kept ++ List.filter (passes add) cands.
Proof.
  induction cands as [|x rest IH]; intros add kept Hlim; simpl.
  - by rewrite app_nil_r.
  - unfold call. destruct (passes add x) eqn:Hp.
    + rewrite exceedsLimit_unlimited by exact Hlim.
      rewrite IH by exact Hlim. rewrite passes_count_one.
      by rewrite <- app_assoc.
    + rewrite exceedsLimit_unlimited by exact Hlim. by apply IH.
Qed.

(** With a limit the loop keeps passing candidates until the count meets
    the limit. *)
Lemma collect_limited cands : forall add kept,
  mItemLimit add <= Int32.INT_MAX ->
  0 <= mItemCount add < mItemLimit add ->
  fst (collect add cands kept) =
  kept ++ take (Z.to_nat (mItemLimit add - mItemCount add))
            (List.filter (passes add) cands).
Proof.
  induction cands as [|x rest IH]; intros add kept Hmax Hcnt; simpl.
  - by rewrite take_nil, app_nil_r.
  - unfold call. destruct (passes add x) eqn:Hp.
    + assert (Hadd : Int32.add (mItemCount add) 1 = mItemCount add + 1).
      { apply Int32.add_exact.
        unfold Int32.in_range, Int32.INT_MIN, Int32.INT_MAX in *. lia. }
      rewrite exceedsLimit_limited by (simpl; lia). simpl. rewrite Hadd.
      destruct (Z.leb_spec (mItemLimit add) (mItemCount add + 1)) as [Hfull | Hroom].
      * simpl. replace (Z.to_nat (mItemLimit add - mItemCount add)) with 1%nat by lia.
        simpl. by rewrite take_0.
      * rewrite IH by (simpl; lia). rewrite passes_count_one. simpl. rewrite Hadd.
        replace (Z.to_nat (mItemLimit add - mItemCount add))
          with (S (Z.to_nat (mItemLimit add - (mItemCount add + 1)))) by lia.
        simpl. by rewrite <- app_assoc.
    + rewrite exceedsLimit_limited by lia.
      destruct (Z.leb_spec (mItemLimit add) (mItemCount add)); [lia |].
      by apply IH.
Qed.

Section Limit.
Variable asString : LLSD.t -> string.
Variable lookup : LLSD.t -> EType.
Variable eq_literal : LLSD.t -> string -> bool.

Local Abbreviation make := (InventoryCollector.make asString lookup eq_literal).

Lemma make_limit_integer data n :
  LLSD.get data "limit" = LLSD.Integer n -> mItemLimit (make data) = Z.max n 1.
Proof. intros H. unfold InventoryCollector.make. simpl. by rewrite H. Qed.

Lemma make_limit_other data :
  LLSD.isInteger (LLSD.get data "limit") = false -> mItemLimit (make data) = 0.
Proof.
  intros H. unfold InventoryCollector.make. simpl.
  by destruct (LLSD.get data "limit").
Qed.

Lemma make_count data : mItemCount (make data) = 0.
Proof. reflexivity. Qed.

(** C10.  When the request's ["limit"] is an integer [n], the collector's
    limit is [max(n, 1)] and collection keeps exactly the first [max(n, 1)]
    passing candidates, so 0 and negative limits act as a limit of 1; when
    ["limit"] is absent or not an integer the limit is 0, which
    [exceedsLimit] never reports as reached, and every passing candidate is
    kept. *)
Theorem collector_limit data cands :
  (forall n, LLSD.get data "limit" = LLSD.Integer n -> Int32.in_range n ->
     mItemLimit (make data) = Z.max n 1 /\
     (forall self, mItemLimit self = mItemLimit (make data) ->
        exceedsLimit self = (Z.max n 1 <=? mItemCount self)) /\
     fst (collect (make data) cands []) =
       take (Z.to_nat (Z.max n 1)) (List.filter (passes (make data)) cands)) /\
  (LLSD.isInteger (LLSD.get data "limit") = false ->
     mItemLimit (make data) = 0 /\
     (forall self, mItemLimit self = mItemLimit (make data) ->
        exceedsLimit self = false) /\
     fst (collect (make data) cands []) = List.filter (passes (make data)) cands).
Proof.
  split.
  - intros n Hn Hrange. pose proof (make_limit_integer data n Hn) as Hlim.
    split; [exact Hlim |]. split.
    + intros self Hself. rewrite exceedsLimit_limited by lia.
      by rewrite Hself, Hlim.
    + rewrite collect_limited.
      * rewrite make_count, Hlim. simpl. by rewrite Z.sub_0_r.
      * rewrite Hlim. unfold Int32.in_range, Int32.INT_MIN, Int32.INT_MAX in *. lia.
      * rewrite make_count, Hlim. lia.
  - intros Hn. pose proof (make_limit_other data Hn) as Hlim.
    split; [exact Hlim |]. split.
    + intros self Hself. apply exceedsLimit_unlimited. by rewrite Hself.
    + by rewrite collect_unlimited.
Qed.
End Limit.

(** A request with ["limit"] 0: one item is collected, not all of them. *)
Example limit_zero_keeps_one :
  fst (collect (make (fun _ => "") (fun _ => AT_UNKNOWN) (fun _ _ => false)
                  (LLSD.Map [("limit", LLSD.Integer 0)]))
         [note "a"; note "b"; note "c"] []) = [note "a"].
Proof. reflexivity. Qed.

Example no_limit_keeps_all :
  fst (collect (make (fun _ => "") (fun _ => AT_UNKNOWN) (fun _ _ => false)
                  (LLSD.Map []))
         [note "a"; note "b"; note "c"] []) = [note "a"; note "b"; note "c"].
Proof. reflexivity. Qed.

Lemma collector_limit_witness :
  mItemLimit (make (fun _ => "") (fun _ => AT_UNKNOWN) (fun _ _ => false)
                (LLSD.Map [("limit", LLSD.Integer (-3))])) = 1 /\
  mItemLimit (make (fun _ => "") (fun _ => AT_UNKNOWN) (fun _ _ => false)
                (LLSD.Map [("limit", LLSD.Str "5")])) = 0.
Proof.
  split.
  - apply (proj1 (collector_limit (fun _ => "") (fun _ => AT_UNKNOWN)
                    (fun _ _ => false)
                    (LLSD.Map [("limit", LLSD.Integer (-3))]) []) (-3)).
    + reflexivity.
    + unfold Int32.in_range, Int32.INT_MIN, Int32.INT_MAX. lia.
  - apply (proj2 (collector_limit (fun _ => "") (fun _ => AT_UNKNOWN)
                    (fun _ _ => false)
                    (LLSD.Map [("limit", LLSD.Str "5")]) [])).
    reflexivity.
Defined.
End InventoryCollector.

(** ** rlvhandler.cpp: commands arriving as owner chat *)

Module Rlv.

(** Modelled from the spec: the enumerations come from [rlvdefines.h] and
    [llchat.h], outside the files covered here; the enumerators that
    [rlvhandler.cpp] names are listed, the remaining ones share a
    catch-all. *)
Inductive ECmdRet : Type :=
| Unknown
| Success
| SuccessUnset
| SuccessDuplicate
| FailedSyntax
| FailedDisabled
| FailedParam
| FailedOption
| OtherRet (code : nat).

#[global] Instance ECmdRet_eq_dec : EqDecision ECmdRet.
Proof. solve_decision. Defined.

Inductive EParamType : Type :=
| ParamUnknown
| ParamReply
| ParamOther (code : nat).

Inductive EChatType : Type :=
| CHAT_TYPE_OWNER
| CHAT_TYPE_OTHER (code : nat).

#[global] Instance EChatType_eq_dec : EqDecision EChatType.
Proof. solve_decision. Defined.

Record LLChat : Type := {
  mChatType : EChatType;
  mFromID : string
}.

Record LLViewerObject : Type := {
  isTempAttachment : bool
}.

(** [message[0]]; reading position 0 of the empty string yields the
    terminating NUL. *)
Definition at0 (message : string) : Ascii.ascii :=
  match message with
  | String c _ => c
  | EmptyString => Ascii.zero
  end.

(** [message.erase(0, 1)] *)
Definition erase_first (message : string) : string :=
  match message with
  | String _ rest => rest
  | EmptyString => EmptyString
  end.

(** [boost::char_separator<char>(",", "", boost::drop_empty_tokens)]: the
    maximal comma-free runs of the message, empty runs left out.  [cur] is
    the run read so far. *)
Fixpoint tokens_from (cur : string) (s : string) : list string :=
  match s with
  | EmptyString => if String.eqb cur "" then [] else [cur]
  | String c rest =>
      if Ascii.eqb c ","%char
      then (if String.eqb cur "" then [] else [cur]) ++ tokens_from "" rest
      else tokens_from (cur +:+ String c "") rest
  end.

Definition boost_tokenizer (message : string) : list string :=
  tokens_from "" message.

Section Handler.
(** The parts of the viewer that [rlvhandler.cpp] only uses: the state the
    commands act on, the command prefix ([Rlv::Constants::CmdPrefix]), the
    three debug settings read through [LLCachedControl],
    [LLStringUtil::toLower], the [RlvCommand] class and the [CommandDbgOut]
    helper. *)
Variable World : Type.
Variable CmdPrefix : Ascii.ascii.
Variable enable_temp_attach show_debug_output hide_unset_dupes : bool.
Variable toLower : string -> string.

Variable RlvCommand : Type.
Variable mkRlvCommand : string -> string -> RlvCommand.
Variable isValid isBlocked : RlvCommand -> bool.
Variable getParamType : RlvCommand -> EParamType.
Variable RlvCommand_processCommand : RlvCommand -> World -> ECmdRet * World.

Variable CommandDbgOut : Type.
Variable mkCommandDbgOut : string -> CommandDbgOut.
Variable CommandDbgOut_add : CommandDbgOut -> string -> ECmdRet -> CommandDbgOut.
Variable CommandDbgOut_get : CommandDbgOut -> string.

(** [processCommand(std::reference_wrapper<const RlvCommand>, bool)] *)
Definition processCommand_ref (rlvCmd : RlvCommand) (fromObj : bool)
    (w : World) : ECmdRet * World :=
  if negb (isValid rlvCmd) then (FailedSyntax, w)
  else if isBlocked rlvCmd then (FailedDisabled, w)
  else
    match getParamType rlvCmd with
    | ParamReply => RlvCommand_processCommand rlvCmd w
    | _ => (FailedParam, w)
    end.

(** [processCommand(const LLUUID&, const std::string&, bool)] *)
Definition processCommand (idObj : string) (strCmd : string) (fromObj : bool)
    (w : World) : ECmdRet * World :=
  processCommand_ref (mkRlvCommand idObj strCmd) fromObj w.

(** The body of the range-for over the tokens. *)
Fixpoint run_tokens (chat : LLChat) (tokens : list string)
    (cmdDbgOut : CommandDbgOut) (w : World) : CommandDbgOut * World :=
  match tokens with
  | [] => (cmdDbgOut, w)
  | strCmd :: rest =>
      let '(eRet, w') := processCommand (mFromID chat) strCmd true w in
      let cmdDbgOut' :=
        if show_debug_output &&
           (negb hide_unset_dupes ||
            (bool_decide (SuccessUnset <> eRet) &&
             bool_decide (SuccessDuplicate <> eRet)))
        then CommandDbgOut_add cmdDbgOut strCmd eRet
        else cmdDbgOut in
      run_tokens chat rest cmdDbgOut' w'
  end.

(** The test that opens [handleSimulatorChat]. *)
Definition not_a_command (message : string) (chat : LLChat)
    (chatObj : option LLViewerObject) : bool :=
  (String.length message <=? 3)%nat
  || negb (Ascii.eqb CmdPrefix (at0 message))
  || negb (bool_decide (CHAT_TYPE_OWNER = mChatType chat))
  || match chatObj with
     | Some obj => isTempAttachment obj && negb enable_temp_attach
     | None => false
     end.

(** [RlvHandler::handleSimulatorChat]: the returned flag, the message as it
    is left in the caller's string, and the state after the commands ran. *)
Definition handleSimulatorChat (message : string) (chat : LLChat)
    (chatObj : option LLViewerObject) (w : World) : bool * string * World :=
  if not_a_command message chat chatObj then (false, message, w)
  else
    let message := erase_first message in
    let message := toLower message in
    let cmdDbgOut := mkCommandDbgOut message in
    let tokens := boost_tokenizer message in
    let '(cmdDbgOut, w) := run_tokens chat tokens cmdDbgOut w in
    let message := CommandDbgOut_get cmdDbgOut in
    (true, message, w).

End Handler.

(** A small instance: commands are well formed when they contain ["="],
    nothing is blocked, and the debug output is the lower-cased message. *)
Definition demo (message : string) (chat : LLChat)
    (chatObj : option LLViewerObject) : bool * string * list string :=
  handleSimulatorChat (list string) "@"%char false false false (fun s => s)
    string (fun _ cmd => cmd)
    (fun cmd => match String.index 0 "=" cmd with Some _ => true | None => false end)
    (fun _ => false) (fun _ => ParamReply)
    (fun cmd w => (Success, w ++ [cmd]))
    string (fun s => s) (fun out _ _ => out) (fun out => out)
    message chat chatObj [].

Definition owner_chat : LLChat :=
  {| mChatType := CHAT_TYPE_OWNER; mFromID := "obj" |}.

(** *** The early return *)

Section HandlerFacts.
Variable World : Type.
Variable CmdPrefix : Ascii.ascii.
Variable enable_temp_attach show_debug_output hide_unset_dupes : bool.
Variable toLower : string -> string.
Variable RlvCommand : Type.
Variable mkRlvCommand : string -> string -> RlvCommand.
Variable isValid isBlocked : RlvCommand -> bool.
Variable getParamType : RlvCommand -> EParamType.
Variable RlvCommand_processCommand : RlvCommand -> World -> ECmdRet * World.
Variable CommandDbgOut : Type.
Variable mkCommandDbgOut : string -> CommandDbgOut.
Variable CommandDbgOut_add : CommandDbgOut -> string -> ECmdRet -> CommandDbgOut.
Variable CommandDbgOut_get : CommandDbgOut -> string.

Local Abbreviation not_a_command :=
  (Rlv.not_a_command CmdPrefix enable_temp_attach).
Local Abbreviation handleSimulatorChat :=
  (Rlv.handleSimulatorChat World CmdPrefix enable_temp_attach
     show_debug_output hide_unset_dupes toLower RlvCommand mkRlvCommand
     isValid isBlocked getParamType RlvCommand_processCommand CommandDbgOut
     mkCommandDbgOut CommandDbgOut_add CommandDbgOut_get).

Lemma not_a_command_iff message chat chatObj :
  not_a_command message chat chatObj = true <->
  (String.length message <= 3)%nat \/
  at0 message <> CmdPrefix \/
  mChatType chat <> CHAT_TYPE_OWNER \/
  (exists obj, chatObj = Some obj /\ isTempAttachment obj = true /\
               enable_temp_attach = false).
Proof.
  unfold Rlv.not_a_command. rewrite !orb_true_iff, !negb_true_iff.
  rewrite Nat.leb_le, bool_decide_eq_false.
  split.
  - intros [[[H | H] | H] | H]; [by left | | | ].
    + right. left. intros Heq. rewrite Heq, Ascii.eqb_refl in H. discriminate.
    + right. right. left. congruence.
    + right. right. right. destruct chatObj as [obj |]; [| discriminate].
      apply andb_true_iff in H as [H1 H2]. apply negb_true_iff in H2.
      by exists obj.
  - intros [H | [H | [H | (obj & -> & H1 & H2)]]].
    + by left; left; left.
    + left; left; right. destruct (Ascii.eqb_spec CmdPrefix (at0 message)); congruence.
    + left; right. congruence.
    + right. by rewrite H1, H2.
Qed.

(** C9.  Whenever the message has at most 3 characters, or does not start
    with the command prefix, or is not owner chat, or comes from a
    temporary attachment while these are disabled, [handleSimulatorChat]
    returns false and leaves the message (and everything else) as it was;
    the message is rewritten only on the runs that return true. *)
Theorem handleSimulatorChat_frame message chat chatObj w :
  ((String.length message <= 3)%nat \/
   at0 message <> CmdPrefix \/
   mChatType chat <> CHAT_TYPE_OWNER \/
   (exists obj, chatObj = Some obj /\ isTempAttachment obj = true /\
                enable_temp_attach = false) ->
   handleSimulatorChat message chat chatObj w = (false, message, w)) /\
  (forall ret message' w',
     handleSimulatorChat message chat chatObj w = (ret, message', w') ->
     message' <> message -> ret = true).
Proof.
  split.
  - intros Hguard. apply not_a_command_iff in Hguard.
    unfold Rlv.handleSimulatorChat. by rewrite Hguard.
  - intros ret message' w' Hrun Hchanged. unfold Rlv.handleSimulatorChat in Hrun.
    destruct (not_a_command message chat chatObj).
    + congruence.
    + destruct (run_tokens _ _ _ _) in Hrun. congruence.
Qed.
End HandlerFacts.

Example demo_runs_commands :
  demo "@version=1,,getstatus=2" owner_chat None =
  (true, "version=1,,getstatus=2", ["version=1"; "getstatus=2"]).
Proof. reflexivity. Qed.

Example demo_ignores_other_chat :
  demo "@version=1"
    {| mChatType := CHAT_TYPE_OTHER 1; mFromID := "obj" |} None =
  (false, "@version=1", []).
Proof. reflexivity. Qed.

Lemma handleSimulatorChat_frame_witness :
  demo "@a=" owner_chat None = (false, "@a=", []).
Proof.
  unfold demo.
  apply (proj1 (handleSimulatorChat_frame (list string) "@"%char false false
                  false (fun s => s) string (fun _ cmd => cmd)
                  (fun cmd => match String.index 0 "=" cmd with
                              | Some _ => true | None => false end)
                  (fun _ => false) (fun _ => ParamReply)
                  (fun cmd w => (Success, w ++ [cmd]))
                  string (fun s => s) (fun out _ _ => out) (fun out => out)
                  "@a=" owner_chat None [])).
  left. simpl. lia.
Defined.
End Rlv.

(** ** llcoros.h: the coroutine registry *)

Module LLCoros.

(** *** The exceptions thrown by [checkStop()] *)

(** The exception classes of the header; [Foreign] stands for any class
    declared elsewhere. *)
Inductive exc_class : Type :=
| LLContinueError
| Stop
| Killed
| Stopping
| Stopped
| Shutdown
| Foreign (name : string).

#[global] Instance exc_class_eq_dec : EqDecision exc_class.
Proof. solve_decision. Defined.

(** The public base named in each [struct] declaration.  The bases of
    [LLContinueError] itself are declared in [llexception.h]. *)
Definition base (c : exc_class) : option exc_class :=
  match c with
  | Stop => Some LLContinueError
  | Killed => Some Stop
  | Stopping => Some Stop
  | Stopped => Some Stop
  | Shutdown => Some Stop
  | LLContinueError => None
  | Foreign _ => None
  end.

(** [c] is [h] or reaches it through at most [depth] base-class links. *)
Fixpoint derives_within (depth : nat) (c h : exc_class) : bool :=
  bool_decide (c = h) ||
  match depth with
  | O => false
  | S depth' =>
      match base c with
      | Some b => derives_within depth' b h
      | None => false
      end
  end.

(** A handler [catch (const h&)] catches a thrown [c]; no chain of bases
    in the header is longer than two links. *)
Definition isa (c h : exc_class) : bool := derives_within 2 c h.

(** "LLContinueError is the category of exception that should not
    immediately crash the viewer." *)
Definition crashes_viewer (c : exc_class) : bool := negb (isa c LLContinueError).

(** The derivation relation itself: the reflexive-transitive closure of
    the base-class links. *)
Definition derived : relation exc_class := rtc (fun c b => base c = Some b).

Record exception : Type := {
  exc_type : exc_class;
  what : string
}.

(** The outcome of a call that may throw. *)
Inductive result (A : Type) : Type :=
| Ok (a : A)
| Raise (e : exception).
Arguments Ok {A} a.
Arguments Raise {A} e.

(** *** Per-coroutine data and the status guard *)

(** [struct CoroData].  [mKilledBy], "killed by which coroutine", is empty
    as long as nobody asked for the coroutine to stop.  [mCreationTime] is
    a time stamp that no operation below inspects. *)
Record CoroData : Type := {
  mName : string;
  mConsuming : bool;
  mKilledBy : string;
  mStatus : string;
  mCreationTime : Z
}.

(** Modelled from the spec: [setStatus] and [getStatus] are defined in
    [llcoros.cpp], outside the files covered here; they write and read the
    "setStatus() state" [mStatus] of the running coroutine's [CoroData]. *)
Definition setStatus (status : string) (current : CoroData) : CoroData :=
  {| mName := mName current; mConsuming := mConsuming current;
     mKilledBy := mKilledBy current; mStatus := status;
     mCreationTime := mCreationTime current |}.

Definition getStatus (current : CoroData) : string := mStatus current.

(** [class TempStatus], "RAII control of status". *)
Record TempStatus : Type := { mOldStatus : string }.

(** [TempStatus(const std::string& status)] *)
Definition TempStatus_ctor (status : string) (current : CoroData)
    : TempStatus * CoroData :=
  let self := {| mOldStatus := getStatus current |} in
  (self, setStatus status current).

(** [~TempStatus()] *)
Definition TempStatus_dtor (self : TempStatus) (current : CoroData) : CoroData :=
  setStatus (mOldStatus self) current.

(** A block [{ TempStatus st(status); body }]: the destructor runs when the
    block is left, whether [body] returns or throws. *)
Definition with_TempStatus {A : Type} (status : string)
    (body : CoroData -> result A * CoroData) (current : CoroData)
    : result A * CoroData :=
  let '(st, current) := TempStatus_ctor status current in
  let '(res, current) := body current in
  (res, TempStatus_dtor st current).

(** Guards constructed one after the other, innermost last. *)
Fixpoint construct_all (statuses : list string) (current : CoroData)
    : list TempStatus * CoroData :=
  match statuses with
  | [] => ([], current)
  | status :: rest =>
      let '(st, current) := TempStatus_ctor status current in
      let '(sts, current) := construct_all rest current in
      (st :: sts, current)
  end.

(** Guards destroyed in the order given; the status read after each
    destructor is recorded. *)
Fixpoint destroy_all (guards : list TempStatus) (current : CoroData)
    : list string * CoroData :=
  match guards with
  | [] => ([], current)
  | st :: rest =>
      let current := TempStatus_dtor st current in
      let status := getStatus current in
      let '(seen, current) := destroy_all rest current in
      (status :: seen, current)
  end.

(** *** The registry *)

(** The global stop phases, in the order the application enters them. *)
Inductive Phase : Type :=
| Running
| PhaseStopping
| PhaseStopped
| PhaseShutdown.

(** What a coroutine does to the rest of the program is recorded as the
    sequence of its visible effects, oldest first. *)
Definition World : Type := list string.

(** [callable_t], "a nullary callable", as used for the cleanup passed to
    [checkStop()]: it acts on the world and returns or throws. *)
Definition callable_t : Type := World -> result unit * World.

(** The body of a coroutine, as the sequence of things it does between the
    points where it may lose control. *)
Inductive fiber : Type :=
| Return
| Throw (e : exception)
| Effect (e : string) (k : fiber)
| Suspend (k : fiber)
| CheckStop (cleanup : option callable_t) (k : fiber).

(** [struct ExceptionData] *)
Record ExceptionData : Type := {
  name : string;          (* name of coroutine that originally threw *)
  exc : exception         (* the thrown exception *)
}.

(** [LLVoidListener], the cleanup handed to [getStopListener]: it closes
    the queue or breaks the promise that consumers wait on. *)
Definition LLVoidListener : Type := World -> World.

(** A listener obtained from [getStopListener]: who registered it, the
    one coroutine that waits on the resource (absent for the two-argument
    overload), and the cleanup to run. *)
Record StopListener : Type := {
  listener_caller : string;
  listener_consumer : option string;
  listener_cleanup : LLVoidListener
}.

(** The singleton: the [CoroData] instances by name (their
    [LLInstanceTracker]), the counter of the name generator, the exception
    queue, the record of the coroutine that is running ([mCurrent], by
    name; none on a context that [launch] did not start), the stop
    listeners, and what the registry shares with the rest of the process:
    the continuations of the suspended coroutines, the stop phase, the
    world and the clock. *)
Record Registry : Type := {
  instances : gmap string CoroData;
  unique : nat;
  mExceptionQueue : list ExceptionData;
  mCurrent : option string;
  stop_listeners : list StopListener;
  suspended : gmap string fiber;
  phase : Phase;
  world : World;
  clock : Z
}.

Definition set_instances (m : gmap string CoroData) (r : Registry) : Registry :=
  {| instances := m; unique := unique r;
     mExceptionQueue := mExceptionQueue r; mCurrent := mCurrent r;
     stop_listeners := stop_listeners r; suspended := suspended r;
     phase := phase r; world := world r; clock := clock r |}.

Definition set_unique (n : nat) (r : Registry) : Registry :=
  {| instances := instances r; unique := n;
     mExceptionQueue := mExceptionQueue r; mCurrent := mCurrent r;
     stop_listeners := stop_listeners r; suspended := suspended r;
     phase := phase r; world := world r; clock := clock r |}.

Definition set_queue (q : list ExceptionData) (r : Registry) : Registry :=
  {| instances := instances r; unique := unique r;
     mExceptionQueue := q; mCurrent := mCurrent r;
     stop_listeners := stop_listeners r; suspended := suspended r;
     phase := phase r; world := world r; clock := clock r |}.

Definition set_current (c : option string) (r : Registry) : Registry :=
  {| instances := instances r; unique := unique r;
     mExceptionQueue := mExceptionQueue r; mCurrent := c;
     stop_listeners := stop_listeners r; suspended := suspended r;
     phase := phase r; world := world r; clock := clock r |}.

Definition set_listeners (l : list StopListener) (r : Registry) : Registry :=
  {| instances := instances r; unique := unique r;
     mExceptionQueue := mExceptionQueue r; mCurrent := mCurrent r;
     stop_listeners := l; suspended := suspended r;
     phase := phase r; world := world r; clock := clock r |}.

Definition set_suspended (m : gmap string fiber) (r : Registry) : Registry :=
  {| instances := instances r; unique := unique r;
     mExceptionQueue := mExceptionQueue r; mCurrent := mCurrent r;
     stop_listeners := stop_listeners r; suspended := m;
     phase := phase r; world := world r; clock := clock r |}.

Definition set_phase (p : Phase) (r : Registry) : Registry :=
  {| instances := instances r; unique := unique r;
     mExceptionQueue := mExceptionQueue r; mCurrent := mCurrent r;
     stop_listeners := stop_listeners r; suspended := suspended r;
     phase := p; world := world r; clock := clock r |}.

Definition set_world (w : World) (r : Registry) : Registry :=
  {| instances := instances r; unique := unique r;
     mExceptionQueue := mExceptionQueue r; mCurrent := mCurrent r;
     stop_listeners := stop_listeners r; suspended := suspended r;
     phase := phase r; world := w; clock := clock r |}.

(** [CoroData::CoroData(const std::string& name)] *)
Definition new_CoroData (name : string) (now : Z) : CoroData :=
  {| mName := name; mConsuming := false; mKilledBy := ""; mStatus := "";
     mCreationTime := now |}.

Definition set_killedBy (by_ : string) (data : CoroData) : CoroData :=
  {| mName := mName data; mConsuming := mConsuming data; mKilledBy := by_;
     mStatus := mStatus data; mCreationTime := mCreationTime data |}.

(** Modelled from the spec: [generateDistinctName] is only declared in the
    header.  "Appends the smallest non-negative integer (starting at the
    registry's running counter, not restarting at 0 each call) such that
    prefix + integer is not currently a live record name."  [candidates]
    bounds the search: with [n] live records one of [n + 1] consecutive
    integers is free. *)
Fixpoint first_unused (live : gmap string CoroData) (prefix : string)
    (candidates : nat) (n : nat) : nat :=
  match candidates with
  | O => n
  | S candidates' =>
      match live !! (prefix +:+ pretty n) with
      | Some _ => first_unused live prefix candidates' (S n)
      | None => n
      end
  end.

(** Modelled from the spec: the name that [generateDistinctName] returns,
    and its counter as the call leaves it: the running counter moves past
    the integer just handed out. *)
Definition generateDistinctName (prefix : string) (r : Registry) : string * nat :=
  let n := first_unused (instances r) prefix (size (instances r)) (unique r) in
  (prefix +:+ pretty n, S n).

(** Modelled from the spec: [checkStop] is only declared in the header.
    "It inspects the fiber's own kill flag and the global phase; if either
    calls for termination, it first invokes optionalCleanup (if the fiber
    supplied one), then raises the corresponding typed interrupt.  If
    optionalCleanup itself raises, that exception propagates instead of the
    stop interrupt."  [Killed] "carries the identity of the requester". *)
Definition stop_interrupt (data : CoroData) (ph : Phase) : option exception :=
  if String.eqb (mKilledBy data) ""
  then
    match ph with
    | Running => None
    | PhaseStopping => Some {| exc_type := Stopping; what := "stopping" |}
    | PhaseStopped => Some {| exc_type := Stopped; what := "stopped" |}
    | PhaseShutdown => Some {| exc_type := Shutdown; what := "shutdown" |}
    end
  else Some {| exc_type := Killed; what := mKilledBy data |}.

Definition checkStop (cleanup : option callable_t) (data : CoroData)
    (ph : Phase) (w : World) : result unit * World :=
  match stop_interrupt data ph with
  | None => (Ok tt, w)
  | Some interrupt =>
      match cleanup with
      | None => (Raise interrupt, w)
      | Some f =>
          match f w with
          | (Ok _, w') => (Raise interrupt, w')
          | (Raise e, w') => (Raise e, w')
          end
      end
  end.

(** How a stretch of a coroutine's body ends. *)
Inductive outcome : Type :=
| Finished
| Raised (e : exception)
| Suspended (k : fiber).

(** The body runs on its own up to the next suspension point, or to its
    end. *)
Fixpoint run_body (data : CoroData) (ph : Phase) (body : fiber) (w : World)
    : outcome * World :=
  match body with
  | Return => (Finished, w)
  | Throw e => (Raised e, w)
  | Effect e k => run_body data ph k (w ++ [e])
  | Suspend k => (Suspended k, w)
  | CheckStop cleanup k =>
      match checkStop cleanup data ph w with
      | (Ok _, w') => run_body data ph k w'
      | (Raise e, w') => (Raised e, w')
      end
  end.

(** Modelled from the spec: [saveException] is only declared in the header.
    "capture(fiberName, exception) ... appends (fiberName, exception) to the
    FIFO queue." *)
Definition saveException (name : string) (e : exception) (r : Registry) : Registry :=
  set_queue (mExceptionQueue r ++ [{| name := name; exc := e |}]) r.

(** The record is destroyed "when the fiber body returns or raises any
    error to the top of its execution". *)
Definition reclaim (name : string) (r : Registry) : Registry :=
  set_suspended (delete name (suspended r))
    (set_instances (delete name (instances r)) r).

(** The stretch of [callable] that runs when coroutine [name] is given
    control, if [name] has a record. *)
Definition stretch (name : string) (callable : fiber) (r : Registry)
    : option (outcome * World) :=
  match instances r !! name with
  | None => None
  | Some data => Some (run_body data (phase r) callable (world r))
  end.

(** Modelled from the spec: [toplevel] is only declared in the header.  The
    wrapper around the body: a stop interrupt that reaches it is discarded,
    any other exception is captured for the main context, and nothing is
    passed on to whoever made the coroutine run. *)
Definition toplevel (name : string) (callable : fiber) (r : Registry)
    : result unit * Registry :=
  match stretch name callable r with
  | None => (Ok tt, r)
  | Some (out, w) =>
      let r := set_world w r in
      match out with
      | Suspended k => (Ok tt, set_suspended (<[name := k]> (suspended r)) r)
      | Finished => (Ok tt, reclaim name r)
      | Raised e =>
          if isa (exc_type e) Stop
          then (Ok tt, reclaim name r)
          else (Ok tt, reclaim name (saveException name e r))
      end
  end.

(** The first half of [launch]: the name is generated and its record
    created, "before the fiber body starts running". *)
Definition register (prefix : string) (r : Registry) : string * Registry :=
  let '(name, next) := generateDistinctName prefix r in
  let r := set_unique next r in
  (name,
   set_instances (<[name := new_CoroData name (clock r)]> (instances r)) r).

(** Modelled from the spec: [launch] is only declared in the header.
    "Generates a unique name from namePrefix, creates a FiberRecord, starts
    the fiber running body ... and runs it until its first suspension point
    or completion before returning control to the caller.  Returns the
    tweaked unique name." *)
Definition launch (prefix : string) (callable : fiber) (r : Registry)
    : result string * Registry :=
  let '(name, r) := register prefix r in
  match toplevel name callable r with
  | (Ok _, r) => (Ok name, r)
  | (Raise e, r) => (Raise e, r)
  end.

(** The scheduler gives control back to a suspended coroutine. *)
Definition resume (name : string) (r : Registry) : result unit * Registry :=
  match suspended r !! name with
  | None => (Ok tt, r)
  | Some k => toplevel name k (set_suspended (delete name (suspended r)) r)
  end.

(** Modelled from the spec: [getName] is only declared in the header.
    "From within a coroutine, look up the (tweaked) name string by which
    this coroutine is registered.  Returns the empty string if not
    found." *)
Definition getName (r : Registry) : string :=
  match mCurrent r with
  | Some name => name
  | None => ""
  end.

(** Modelled from the spec: the two overloads of [getStopListener] are only
    declared in the header.  The two-argument one serves "a queue, promise
    or other resource on which coroutines will wait, so that shutdown can
    wake up consuming coroutines"; the three-argument one names the only
    consumer, the empty string standing for the calling coroutine, and
    "also responds to killreq(target)".  The listener stays connected. *)
Definition getStopListener (caller : string) (cleanup : LLVoidListener)
    (r : Registry) : Registry :=
  set_listeners
    (stop_listeners r ++
       [{| listener_caller := caller; listener_consumer := None;
           listener_cleanup := cleanup |}]) r.

Definition getStopListener_for (caller consumer : string)
    (cleanup : LLVoidListener) (r : Registry) : Registry :=
  let consumer := if String.eqb consumer "" then getName r else consumer in
  set_listeners
    (stop_listeners r ++
       [{| listener_caller := caller; listener_consumer := Some consumer;
           listener_cleanup := cleanup |}]) r.

(** Modelled from the spec: the event pump behind the listeners is outside
    the files covered here.  "Both subscribe onStopCleanup to the global
    stop/shutdown signal (and, for the scoped overload, to kill-requests
    targeting consumerFiberName)."  The listeners that a kill request for
    [target] reaches: *)
Definition responds_to_killreq (target : string) (l : StopListener) : bool :=
  match listener_consumer l with
  | Some consumer => String.eqb consumer target
  | None => false
  end.

(** The cleanups of the listeners run one after the other, in the order of
    registration. *)
Definition notify (listeners : list StopListener) (w : World) : World :=
  foldl (fun w l => listener_cleanup l w) w listeners.

(** Modelled from the spec: [killreq] is only declared in the header.
    "Marks the named fiber's record with killedBy = caller, returns whether
    a live record was found.  Does not force-terminate."  The caller is the
    coroutine that is running, by the name [getName] gives it; the stop
    listeners registered for the target are told. *)
Definition killreq (name : string) (r : Registry) : bool * Registry :=
  match instances r !! name with
  | None => (false, r)
  | Some data =>
      let r :=
        set_instances (<[name := set_killedBy (getName r) data]> (instances r)) r in
      (true,
       set_world
         (notify (List.filter (responds_to_killreq name) (stop_listeners r))
            (world r)) r)
  end.

(** Modelled from the spec: the application state is kept outside the
    files covered here.  When the application enters a stop phase, every
    stop listener, subscribed "to the global stop/shutdown signal", is
    told. *)
Definition enter_phase (p : Phase) (r : Registry) : Registry :=
  let r := set_phase p r in
  match p with
  | Running => r
  | _ => set_world (notify (stop_listeners r) (world r)) r
  end.

(** Modelled from the spec: [rethrow] is only declared in the header.
    "Each call to rethrow() pops the first of those and rethrows it.  When
    the queue is empty (normal case), rethrow() is a no-op." *)
Definition rethrow (r : Registry) : result unit * Registry :=
  match mExceptionQueue r with
  | [] => (Ok tt, r)
  | first :: rest => (Raise (exc first), set_queue rest r)
  end.

(** *** Sequences of registry operations *)

(** The calls made on the registry: launches, the scheduler resuming a
    suspended coroutine, a kill request made by the context [from] (a
    coroutine, or none for the main context), the main loop's [rethrow],
    and the application entering a phase. *)
Inductive op : Type :=
| OpLaunch (prefix : string) (callable : fiber)
| OpResume (name : string)
| OpKillreq (from : option string) (name : string)
| OpRethrow
| OpPhase (p : Phase).

(** The exception, if any, that leaves the body and is no stop interrupt. *)
Definition uncaught (out : option (outcome * World)) : option exception :=
  match out with
  | Some (Raised e, _) => if isa (exc_type e) Stop then None else Some e
  | _ => None
  end.

(** What the caller of an operation gets to see, and for the operations
    that run a coroutine, the exception that left its body. *)
Inductive observation : Type :=
| Launched (prefix : string) (answer : result string) (escaped : option exception)
| Resumed (answer : result unit) (escaped : option exception)
| KillAnswer (found : bool)
| Rethrown (answer : result unit)
| PhaseSet.

Definition perform (o : op) (r : Registry) : observation * Registry :=
  match o with
  | OpLaunch prefix callable =>
      let '(name, r0) := register prefix r in
      let '(answer, r') := launch prefix callable r in
      (Launched prefix answer (uncaught (stretch name callable r0)), r')
  | OpResume name =>
      let escaped :=
        match suspended r !! name with
        | Some k => uncaught (stretch name k r)
        | None => None
        end in
      let '(answer, r') := resume name r in
      (Resumed answer escaped, r')
  | OpKillreq from name =>
      let '(found, r') := killreq name (set_current from r) in
      (KillAnswer found, set_current (mCurrent r) r')
  | OpRethrow =>
      let '(answer, r') := rethrow r in (Rethrown answer, r')
  | OpPhase p => (PhaseSet, enter_phase p r)
  end.

Fixpoint perform_all (ops : list op) (r : Registry)
    : list observation * Registry :=
  match ops with
  | [] => ([], r)
  | o :: rest =>
      let '(seen, r) := perform o r in
      let '(more, r) := perform_all rest r in
      (seen :: more, r)
  end.

(** The names that the launches with a given prefix returned. *)
Definition launched_as (prefix : string) (seen : observation) : list string :=
  match seen with
  | Launched p (Ok name) _ => if decide (p = prefix) then [name] else []
  | _ => []
  end.

(** The exceptions that escaped coroutine bodies, and those that
    [rethrow] raised, each in order of occurrence. *)
Definition escaped_in (seen : observation) : list exception :=
  match seen with
  | Launched _ _ (Some e) => [e]
  | Resumed _ (Some e) => [e]
  | _ => []
  end.

Definition rethrown_in (seen : observation) : list exception :=
  match seen with
  | Rethrown (Raise e) => [e]
  | _ => []
  end.

(** The effects of a body up to its first suspension point, when no stop
    is pending and every [checkStop] on the way returns. *)
Fixpoint first_stretch_effects (body : fiber) : list string :=
  match body with
  | Effect e k => e :: first_stretch_effects k
  | CheckStop _ k => first_stretch_effects k
  | _ => []
  end.

(** The effects with which a body starts, before its first [checkStop],
    suspension point or end, and what follows them. *)
Fixpoint leading_effects (body : fiber) : list string :=
  match body with
  | Effect e k => e :: leading_effects k
  | _ => []
  end.

Fixpoint after_effects (body : fiber) : fiber :=
  match body with
  | Effect _ k => after_effects k
  | _ => body
  end.

Definition stopping (ph : Phase) : bool :=
  match ph with
  | Running => false
  | _ => true
  end.

(** The world as the first stretch of a new coroutine leaves it in a stop
    phase: the leading effects happen, and if they lead to a [checkStop]
    with a cleanup, the cleanup runs on them; there the body ends. *)
Definition stopped_stretch_world (body : fiber) (w : World) : World :=
  match after_effects body with
  | CheckStop (Some cleanup) _ => (cleanup (w ++ leading_effects body)).2
  | _ => w ++ leading_effects body
  end.

(** The rest of the body that a new coroutine is left holding after its
    first stretch, if that stretch ends at a suspension point: in a stop
    phase the first [checkStop] ends the body, otherwise every [checkStop]
    returns. *)
Fixpoint first_wait (stop : bool) (body : fiber) : option fiber :=
  match body with
  | Effect _ k => first_wait stop k
  | CheckStop _ k => if stop then None else first_wait stop k
  | Suspend k => Some k
  | _ => None
  end.

Definition empty_registry : Registry :=
  {| instances := ∅; unique := 0; mExceptionQueue := [];
     mCurrent := None; stop_listeners := [];
     suspended := ∅; phase := Running; world := []; clock := 0 |}.

Definition boom : exception := {| exc_type := Foreign "RuntimeError"; what := "boom" |}.

Definition idle : CoroData := new_CoroData "job0" 0.

Definition other_error : exception :=
  {| exc_type := Foreign "LogicError"; what := "bad state" |}.

Definition close_queue : callable_t := fun w => (Ok tt, w ++ ["queue closed"]).
Definition failing_cleanup : callable_t := fun w => (Raise boom, w ++ ["tried"]).

(** The coroutines "boss0" and "job0" are live, "boss0" is running. *)
Definition one_job : Registry :=
  set_current (Some "boss0")
    (set_instances {[ "boss0" := new_CoroData "boss0" 0; "job0" := idle ]}
       empty_registry).

(** The same, with a queue that only "job0" reads from. *)
Definition watched_job : Registry :=
  getStopListener_for "queue" "job0" (fun w => w ++ ["queue closed"]) one_job.

Definition check_then_work : fiber :=
  Suspend (CheckStop None (Effect "worked" Return)).

Definition wait_forever : fiber := Suspend Return.

Definition fetch_body : fiber :=
  Effect "request sent"
    (CheckStop None
       (Effect "timer armed" (Suspend (Effect "reply handled" Return)))).

(** *** The stop family *)

Lemma derives_within_derived depth c h :
  derives_within depth c h = true -> derived c h.
Proof.
  revert c. induction depth as [|d IH]; intros c; simpl.
  - rewrite orb_false_r. intros ->%bool_decide_eq_true. apply rtc_refl.
  - intros [->%bool_decide_eq_true | H]%orb_true_iff; [apply rtc_refl |].
    destruct (base c) as [b |] eqn:Hb; [| discriminate].
    eapply rtc_l; [exact Hb | by apply IH].
Qed.

Lemma derives_within_mono depth c h :
  derives_within depth c h = true -> derives_within (S depth) c h = true.
Proof.
  revert c. induction depth as [|d IH]; intros c.
  - simpl. rewrite orb_false_r. intros ->. reflexivity.
  - intros H. simpl in H. apply orb_true_iff in H as [H | H].
    + simpl. by rewrite H.
    + destruct (base c) as [b |] eqn:Hb; [| discriminate].
      apply IH in H. change (derives_within (S (S d)) c h)
        with (bool_decide (c = h) || match base c with
                                     | Some b => derives_within (S d) b h
                                     | None => false end).
      rewrite Hb, H. apply orb_true_r.
Qed.

(** Two links are enough: [isa] decides [derived]. *)
Lemma isa_derived c h : isa c h = true <-> derived c h.
Proof.
  split; [apply derives_within_derived |].
  intros H. induction H as [c | c b h Hb _ IH].
  - unfold isa. simpl. by rewrite bool_decide_eq_true_2.
  - destruct c; simpl in Hb; try discriminate; injection Hb as <-;
      destruct h; try reflexivity; vm_compute in IH; discriminate.
Qed.

(** C5.  [Killed], [Stopping], [Stopped] and [Shutdown] all derive from
    [Stop], so a handler for [Stop] catches each of them; [Stop] derives
    from [LLContinueError]; hence nothing in the [Stop] family counts as a
    crash of the viewer. *)
Theorem stop_family :
  Forall (fun c => isa c Stop = true) [Killed; Stopping; Stopped; Shutdown] /\
  isa Stop LLContinueError = true /\
  (forall c, derived c Stop -> crashes_viewer c = false).
Proof.
  split; [| split].
  - repeat constructor.
  - reflexivity.
  - intros c Hc. unfold crashes_viewer. apply negb_false_iff, isa_derived.
    etrans; [exact Hc |]. apply isa_derived. reflexivity.
Qed.

(** *** The status guard *)

Lemma getStatus_setStatus status current :
  getStatus (setStatus status current) = status.
Proof. reflexivity. Qed.

Lemma construct_all_old statuses : forall current,
  mOldStatus <$> (construct_all statuses current).1 =
  take (length statuses) (getStatus current :: statuses).
Proof.
  induction statuses as [|status rest IH]; intros current; [done |].
  pose proof (IH (setStatus status current)) as IH'.
  cbn [construct_all TempStatus_ctor].
  destruct (construct_all rest (setStatus status current)) as [sts inner].
  cbn [fst] in *. rewrite fmap_cons, IH'. reflexivity.
Qed.

Lemma construct_all_status statuses : forall current,
  getStatus (construct_all statuses current).2 =
  default (getStatus current) (last statuses).
Proof.
  induction statuses as [|status rest IH]; intros current; [done |].
  pose proof (IH (setStatus status current)) as IH'.
  cbn [construct_all TempStatus_ctor].
  destruct (construct_all rest (setStatus status current)) as [sts inner].
  cbn [snd] in *. rewrite IH', last_cons. by destruct (last rest).
Qed.

Lemma destroy_all_seen guards : forall current,
  (destroy_all guards current).1 = mOldStatus <$> guards.
Proof.
  induction guards as [|st rest IH]; intros current; [done |].
  pose proof (IH (TempStatus_dtor st current)) as IH'.
  cbn [destroy_all].
  destruct (destroy_all rest (TempStatus_dtor st current)) as [seen final].
  cbn [fst] in *. rewrite fmap_cons, IH'. reflexivity.
Qed.

Lemma destroy_all_final guards : forall current,
  getStatus (destroy_all guards current).2 =
  default (getStatus current) (mOldStatus <$> last guards).
Proof.
  induction guards as [|st rest IH]; intros current; [done |].
  pose proof (IH (TempStatus_dtor st current)) as IH'.
  cbn [destroy_all].
  destruct (destroy_all rest (TempStatus_dtor st current)) as [seen final].
  cbn [snd] in *. rewrite IH', last_cons. by destruct (last rest).
Qed.

(** C6.  Inside a coroutine whose status is [p], constructing a
    [TempStatus] with [s] makes [getStatus()] return [s]; the body of the
    guarded block starts from there, and however the block is left, by
    return or by exception, [getStatus()] returns [p] afterwards.  Guards
    constructed one inside the other and destroyed in reverse order bring
    back the earlier statuses one by one, ending with [p]. *)
Theorem TempStatus_restores (s : string) (current : CoroData) :
  getStatus (TempStatus_ctor s current).2 = s /\
  (forall (A : Type) (body : CoroData -> result A * CoroData),
     (with_TempStatus s body current).1 = (body (setStatus s current)).1 /\
     getStatus (with_TempStatus s body current).2 = getStatus current) /\
  (forall inner : list string,
     let statuses := s :: inner in
     let '(guards, innermost) := construct_all statuses current in
     getStatus innermost = default s (last inner) /\
     (destroy_all (reverse guards) innermost).1 =
       reverse (take (length statuses) (getStatus current :: statuses)) /\
     getStatus (destroy_all (reverse guards) innermost).2 = getStatus current).
Proof.
  split; [reflexivity |]. split.
  - intros A body. unfold with_TempStatus, TempStatus_ctor.
    destruct (body (setStatus s current)) as [res after]. done.
  - intros inner statuses.
    pose proof (construct_all_old statuses current) as Hold.
    pose proof (construct_all_status statuses current) as Hst.
    destruct (construct_all statuses current) as [guards innermost] eqn:Hc.
    cbn [fst snd] in *. split; [| split].
    + rewrite Hst. subst statuses. rewrite last_cons. by destruct (last inner).
    + by rewrite destroy_all_seen, fmap_reverse, Hold.
    + rewrite destroy_all_final, last_reverse.
      destruct guards as [|st sts]; [discriminate Hold |].
      simpl in Hold. injection Hold as Hfirst _. simpl. exact Hfirst.
Qed.

(** A guarded block left by an exception still restores the status. *)
Example TempStatus_unwinds :
  with_TempStatus "loading"
    (fun c => (Raise boom : result unit, setStatus "half way" c))
    (setStatus "waiting" idle) =
  (Raise boom, setStatus "waiting" idle).
Proof. reflexivity. Qed.

Example TempStatus_nested :
  let '(guards, innermost) :=
    construct_all ["outer"; "middle"; "inner"] (setStatus "idle" idle) in
  getStatus innermost = "inner" /\
  (destroy_all (reverse guards) innermost).1 = ["middle"; "outer"; "idle"].
Proof. split; reflexivity. Qed.

(** *** Cooperative stops *)

Lemma stop_interrupt_family data ph stop :
  stop_interrupt data ph = Some stop -> isa (exc_type stop) Stop = true.
Proof.
  unfold stop_interrupt. destruct (String.eqb (mKilledBy data) "").
  - destruct ph; [discriminate | by intros [= <-] ..].
  - by intros [= <-].
Qed.

Lemma stop_interrupt_is_Some data ph :
  mKilledBy data <> "" \/ ph <> Running -> is_Some (stop_interrupt data ph).
Proof.
  unfold stop_interrupt. intros [Hk | Hp].
  - destruct (String.eqb_spec (mKilledBy data) ""); [done | by eexists].
  - destruct (String.eqb (mKilledBy data) ""); [| by eexists].
    destruct ph; [done | by eexists ..].
Qed.


(** C3.  When the coroutine's kill flag is set or a global stop phase is in
    effect, [checkStop] with a cleanup runs the cleanup first: if the
    cleanup returns, the stop interrupt of the condition ([Killed] for a kill
    request, otherwise the exception of the phase) is raised on the world
    the cleanup left; if the cleanup throws, its exception is what
    [checkStop] propagates, and no stop interrupt. *)
Theorem checkStop_cleanup_first (data : CoroData) (ph : Phase)
    (cleanup : callable_t) (w : World) :
  mKilledBy data <> "" \/ ph <> Running ->
  (forall w', cleanup w = (Ok tt, w') ->
     exists stop, checkStop (Some cleanup) data ph w = (Raise stop, w') /\
       isa (exc_type stop) Stop = true /\
       exc_type stop =
         if decide (mKilledBy data = "")
         then match ph with
              | PhaseStopped => Stopped
              | PhaseShutdown => Shutdown
              | _ => Stopping
              end
         else Killed) /\
  (forall e w', cleanup w = (Raise e, w') ->
     checkStop (Some cleanup) data ph w = (Raise e, w')).
Proof.
  intros Hcond. destruct (stop_interrupt_is_Some data ph Hcond) as [stop Hstop].
  split.
  - intros w' Hclean. exists stop. split; [| split].
    + unfold checkStop. by rewrite Hstop, Hclean.
    + by eapply stop_interrupt_family.
    + unfold stop_interrupt in Hstop.
      destruct (String.eqb_spec (mKilledBy data) "") as [Hnone | Hsome].
      * rewrite decide_True by done.
        destruct ph; [discriminate | by injection Hstop as <- ..].
      * rewrite decide_False by done. by injection Hstop as <-.
  - intros e w' Hclean. unfold checkStop. by rewrite Hstop, Hclean.
Qed.

Lemma checkStop_cleanup_first_witness :
  checkStop (Some close_queue) idle PhaseStopped [] =
    (Raise {| exc_type := Stopped; what := "stopped" |}, ["queue closed"]) /\
  checkStop (Some failing_cleanup) idle PhaseStopped [] = (Raise boom, ["tried"]).
Proof.
  assert (Hcond : mKilledBy idle <> "" \/ PhaseStopped <> Running)
    by (right; discriminate).
  destruct (checkStop_cleanup_first idle PhaseStopped close_queue [] Hcond)
    as [Hreturns _].
  destruct (checkStop_cleanup_first idle PhaseStopped failing_cleanup [] Hcond)
    as [_ Hthrows].
  split.
  - destruct (Hreturns ["queue closed"] eq_refl) as (stop & Hrun & _ & _).
    reflexivity.
  - exact (Hthrows boom ["tried"] eq_refl).
Defined.

(** Without a stop condition [checkStop] returns and leaves the cleanup
    alone. *)
Lemma checkStop_quiet cleanup data w :
  mKilledBy data = "" -> checkStop cleanup data Running w = (Ok tt, w).
Proof. intros H. unfold checkStop, stop_interrupt. by rewrite H. Qed.

(** *** Kill requests *)



(** A suspended coroutine that another coroutine asked to stop ends at its
    next [checkStop]: it does no further work, its record is reclaimed and
    the interrupt is not queued for the main context. *)
Example killreq_then_resume :
  let r0 := (launch "job" check_then_work empty_registry).2 in
  let r1 := (launch "boss" wait_forever r0).2 in
  let '(found, r2) := killreq "job0" (set_current (Some "boss0") r1) in
  let r3 := (resume "job0" r2).2 in
  found = true /\
  is_Some (instances r2 !! "job0") /\ is_Some (suspended r2 !! "job0") /\
  instances r2 !! "job0" = Some (set_killedBy "boss0" idle) /\
  instances r3 !! "job0" = None /\ world r3 = [] /\ mExceptionQueue r3 = [].
Proof. vm_compute. repeat split; by eexists. Qed.

(** A request made outside any named coroutine leaves [mKilledBy] empty:
    the named coroutine's [checkStop] goes on returning. *)
Example killreq_from_unnamed_context :
  let '(found, r') := killreq "job0" (set_current None one_job) in
  found = true /\
  instances r' !! "job0" = Some idle /\
  checkStop None idle Running [] = (Ok tt, []).
Proof. repeat split. Qed.

(** The listener registered for "job0" is told of the request, one
    registered for another coroutine is not. *)
Example killreq_tells_listeners :
  world (killreq "job0" watched_job).2 = ["queue closed"] /\
  world (killreq "job0"
           (getStopListener_for "queue" "job1" (fun w => w ++ ["other closed"])
              one_job)).2 = [].
Proof. split; reflexivity. Qed.


(** *** Names *)

Lemma name_inj prefix (a b : nat) :
  prefix +:+ pretty a = prefix +:+ pretty b -> a = b.
Proof. intros H. by apply (inj pretty), (inj (String.append prefix)). Qed.

(** The search of [first_unused], given a set [X] of live names that none
    of the candidates still to come belongs to. *)
Lemma first_unused_spec live prefix candidates :
  forall (n : nat) (X : gset string),
    X ⊆ dom live ->
    (forall k, n <= k -> prefix +:+ pretty k ∉ X) ->
    size (dom live) <= size X + candidates ->
    let m := first_unused live prefix candidates n in
    n <= m /\ live !! (prefix +:+ pretty m) = None /\
    forall k, n <= k < m -> is_Some (live !! (prefix +:+ pretty k)).
Proof.
  induction candidates as [|c IH]; intros n X Hsub Hfresh Hsize; simpl.
  - split; [lia |]. split; [| intros k Hk; lia].
    apply not_elem_of_dom.
    assert (HX : X = dom live) by (apply set_subseteq_size_eq; [done | lia]).
    rewrite <- HX. apply Hfresh. lia.
  - destruct (live !! (prefix +:+ pretty n)) as [data |] eqn:Hn.
    + destruct (IH (S n) ({[ prefix +:+ pretty n ]} ∪ X)) as (Hle & Hfree & Hbusy).
      * apply union_subseteq. split; [| done].
        apply singleton_subseteq_l. by eapply elem_of_dom_2.
      * intros k Hk [Heq%elem_of_singleton | Hin]%elem_of_union.
        -- apply name_inj in Heq. lia.
        -- apply (Hfresh k); [lia | done].
      * rewrite size_union, size_singleton; [lia |].
        apply disjoint_singleton_l. apply Hfresh. lia.
      * split; [lia |]. split; [done |].
        intros k Hk. destruct (decide (k = n)) as [-> | Hne]; [by eexists |].
        apply Hbusy. lia.
    + split; [lia |]. split; [done |]. intros k Hk. lia.
Qed.

Lemma generateDistinctName_spec prefix r :
  exists n,
    generateDistinctName prefix r = (prefix +:+ pretty n, S n) /\
    unique r <= n /\
    instances r !! (prefix +:+ pretty n) = None /\
    forall k, unique r <= k < n ->
      is_Some (instances r !! (prefix +:+ pretty k)).
Proof.
  eexists. split; [reflexivity |].
  apply (first_unused_spec (instances r) prefix (size (instances r))
           (unique r) ∅).
  - apply empty_subseteq.
  - intros k _. apply not_elem_of_empty.
  - rewrite size_dom. lia.
Qed.

(** *** The wrapper never lets an exception through *)

Lemma toplevel_ok name callable r : (toplevel name callable r).1 = Ok tt.
Proof.
  unfold toplevel. destruct (stretch name callable r) as [[out w] |]; [| done].
  destruct out as [| e | k]; [done | | done].
  by destruct (isa (exc_type e) Stop).
Qed.

Lemma toplevel_unique name callable r :
  unique (toplevel name callable r).2 = unique r.
Proof.
  unfold toplevel. destruct (stretch name callable r) as [[out w] |]; [| done].
  destruct out as [| e | k]; [done | | done].
  by destruct (isa (exc_type e) Stop).
Qed.

Lemma toplevel_queue name callable r :
  mExceptionQueue (toplevel name callable r).2 =
  mExceptionQueue r ++
    match uncaught (stretch name callable r) with
    | Some e => [{| name := name; exc := e |}]
    | None => []
    end.
Proof.
  unfold toplevel, uncaught.
  destruct (stretch name callable r) as [[out w] |]; [| by rewrite app_nil_r].
  destruct out as [| e | k]; [by rewrite app_nil_r | | by rewrite app_nil_r].
  destruct (isa (exc_type e) Stop); [by rewrite app_nil_r | done].
Qed.

Lemma launch_unfold prefix callable r :
  launch prefix callable r =
  (Ok (register prefix r).1,
   (toplevel (register prefix r).1 callable (register prefix r).2).2).
Proof.
  unfold launch. destruct (register prefix r) as [name r0]. cbn [fst snd].
  pose proof (toplevel_ok name callable r0) as Hok.
  destruct (toplevel name callable r0) as [[[] | e] r']; [done | discriminate].
Qed.

Lemma register_unfold prefix r :
  exists n,
    register prefix r =
      (prefix +:+ pretty n,
       set_instances
         (<[prefix +:+ pretty n := new_CoroData (prefix +:+ pretty n) (clock r)]>
            (instances r))
         (set_unique (S n) r)) /\
    unique r <= n /\
    instances r !! (prefix +:+ pretty n) = None /\
    forall k, unique r <= k < n ->
      is_Some (instances r !! (prefix +:+ pretty k)).
Proof.
  destruct (generateDistinctName_spec prefix r) as (n & Hgen & Hrest).
  exists n. split; [| exact Hrest]. unfold register. by rewrite Hgen.
Qed.

(** *** One operation at a time *)

Lemma perform_launch prefix callable r :
  exists n,
    let name := prefix +:+ pretty n in
    let r0 :=
      set_instances (<[name := new_CoroData name (clock r)]> (instances r))
        (set_unique (S n) r) in
    perform (OpLaunch prefix callable) r =
      (Launched prefix (Ok name) (uncaught (stretch name callable r0)),
       (toplevel name callable r0).2) /\
    unique r <= n /\ instances r !! name = None.
Proof.
  destruct (register_unfold prefix r) as (n & Hreg & Hle & Hfree & _).
  exists n. cbv zeta. split; [| done].
  unfold perform. rewrite launch_unfold, Hreg. reflexivity.
Qed.

Lemma killreq_keeps name r :
  unique (killreq name r).2 = unique r /\
  mExceptionQueue (killreq name r).2 = mExceptionQueue r.
Proof. unfold killreq. by destruct (instances r !! name). Qed.

Lemma perform_killreq from name r :
  perform (OpKillreq from name) r =
  (KillAnswer (killreq name (set_current from r)).1,
   set_current (mCurrent r) (killreq name (set_current from r)).2).
Proof. unfold perform. by destruct (killreq name (set_current from r)). Qed.

Lemma enter_phase_keeps p r :
  unique (enter_phase p r) = unique r /\
  mExceptionQueue (enter_phase p r) = mExceptionQueue r.
Proof. by destruct p. Qed.

Lemma perform_unique o r : unique r <= unique (perform o r).2.
Proof.
  destruct o as [prefix callable | name | caller name | | p].
  - destruct (perform_launch prefix callable r) as (n & Hrun & Hle & _).
    cbv zeta in Hrun. rewrite Hrun. cbn [snd].
    rewrite toplevel_unique. simpl. lia.
  - unfold perform, resume. destruct (suspended r !! name) as [k |]; [| done].
    destruct (toplevel _ _ _) as [answer r'] eqn:Hrun. cbn [snd].
    replace r' with (toplevel name k (set_suspended (delete name (suspended r)) r)).2
      by (by rewrite Hrun).
    by rewrite toplevel_unique.
  - rewrite perform_killreq. cbn [snd unique set_current].
    change (unique r) with (unique (set_current caller r)) at 1.
    by rewrite <- (proj1 (killreq_keeps name (set_current caller r))).
  - unfold perform, rethrow. by destruct (mExceptionQueue r).
  - cbn [perform snd]. by rewrite (proj1 (enter_phase_keeps p r)).
Qed.

Lemma perform_launched prefix o r :
  launched_as prefix (perform o r).1 = [] \/
  exists n, launched_as prefix (perform o r).1 = [prefix +:+ pretty n] /\
            unique r <= n < unique (perform o r).2.
Proof.
  destruct o as [p callable | name | caller name | | p]; try (by left).
  - destruct (perform_launch p callable r) as (n & Hrun & Hle & _).
    cbv zeta in Hrun. rewrite Hrun. cbn [fst snd launched_as].
    destruct (decide (p = prefix)) as [-> | _]; [| by left].
    right. exists n. split; [done |]. rewrite toplevel_unique. simpl. lia.
  - left. unfold perform. by destruct (resume name r).
  - left. by rewrite perform_killreq.
  - left. unfold perform. by destruct (rethrow r).
Qed.

(** The queue is first in, first out: what one operation re-raises and
    leaves queued is what was queued followed by what escaped. *)
Lemma perform_queue o r :
  rethrown_in (perform o r).1 ++ (exc <$> mExceptionQueue (perform o r).2) =
  (exc <$> mExceptionQueue r) ++ escaped_in (perform o r).1.
Proof.
  destruct o as [prefix callable | name | caller name | | p].
  - destruct (perform_launch prefix callable r) as (n & Hrun & _).
    cbv zeta in Hrun. rewrite Hrun. cbn [fst snd rethrown_in escaped_in].
    rewrite toplevel_queue, fmap_app. cbn [mExceptionQueue set_instances set_unique].
    by destruct (uncaught _).
  - unfold perform, resume. destruct (suspended r !! name) as [k |].
    + destruct (toplevel _ _ _) as [answer r'] eqn:Hrun.
      cbn [fst snd rethrown_in escaped_in].
      replace r' with (toplevel name k (set_suspended (delete name (suspended r)) r)).2
        by (by rewrite Hrun).
      rewrite toplevel_queue, fmap_app.
      change (stretch name k (set_suspended (delete name (suspended r)) r))
        with (stretch name k r).
      by destruct (uncaught _).
    + simpl. by rewrite app_nil_r.
  - rewrite perform_killreq.
    cbn [fst snd rethrown_in escaped_in mExceptionQueue set_current app].
    change (mExceptionQueue (killreq name (set_current caller r)).2)
      with (mExceptionQueue (set_current (mCurrent r)
              (killreq name (set_current caller r)).2)).
    cbn [mExceptionQueue set_current].
    rewrite (proj2 (killreq_keeps name (set_current caller r))).
    cbn [mExceptionQueue set_current]. by rewrite app_nil_r.
  - unfold perform, rethrow.
    destruct (mExceptionQueue r) as [| first rest] eqn:Hq; simpl;
      rewrite ?Hq, ?app_nil_r; done.
  - cbn [perform fst snd rethrown_in escaped_in app].
    rewrite (proj2 (enter_phase_keeps p r)). by rewrite app_nil_r.
Qed.

Lemma perform_all_cons o ops r :
  perform_all (o :: ops) r =
  ((perform o r).1 :: (perform_all ops (perform o r).2).1,
   (perform_all ops (perform o r).2).2).
Proof.
  simpl. destruct (perform o r) as [seen r1]. cbn [fst snd].
  by destruct (perform_all ops r1).
Qed.

Lemma perform_all_names prefix ops : forall r,
  unique r <= unique (perform_all ops r).2 /\
  NoDup ((perform_all ops r).1 ≫= launched_as prefix) /\
  forall name, name ∈ (perform_all ops r).1 ≫= launched_as prefix ->
    exists n, name = prefix +:+ pretty n /\
              unique r <= n < unique (perform_all ops r).2.
Proof.
  induction ops as [| o ops IH]; intros r.
  - simpl. split; [lia |]. split; [constructor |]. intros name Hin. inversion Hin.
  - rewrite perform_all_cons. cbn [fst snd]. rewrite bind_cons.
    destruct (IH (perform o r).2) as (Hmono & Hnodup & Hrange).
    pose proof (perform_unique o r) as Hstep.
    split; [lia |].
    destruct (perform_launched prefix o r) as [-> | (n & -> & Hn)].
    + split; [done |]. intros name Hin.
      destruct (Hrange name Hin) as (k & -> & Hk). exists k. split; [done | lia].
    + split.
      * apply NoDup_cons. split; [| done]. intros Hin.
        destruct (Hrange _ Hin) as (k & Heq%name_inj & Hk). lia.
      * intros name [-> | Hin]%elem_of_cons.
        -- exists n. split; [done | lia].
        -- destruct (Hrange name Hin) as (k & -> & Hk). exists k. split; [done | lia].
Qed.

Lemma perform_all_queue ops : forall r,
  ((perform_all ops r).1 ≫= rethrown_in) ++
    (exc <$> mExceptionQueue (perform_all ops r).2) =
  (exc <$> mExceptionQueue r) ++ ((perform_all ops r).1 ≫= escaped_in).
Proof.
  induction ops as [| o ops IH]; intros r.
  - simpl. by rewrite app_nil_r.
  - rewrite perform_all_cons. cbn [fst snd]. rewrite !bind_cons.
    rewrite <- app_assoc, IH, !app_assoc. f_equal. apply perform_queue.
Qed.

(** *** Launching *)

Lemma launch_spec prefix callable r :
  let name := (generateDistinctName prefix r).1 in
  let r0 :=
    set_instances (<[name := new_CoroData name (clock r)]> (instances r))
      (set_unique (generateDistinctName prefix r).2 r) in
  launch prefix callable r = (Ok name, (toplevel name callable r0).2) /\
  stretch name callable r0 =
    Some (run_body (new_CoroData name (clock r)) (phase r) callable (world r)) /\
  instances r !! name = None.
Proof.
  cbv zeta. destruct (generateDistinctName_spec prefix r) as (n & Hgen & _ & Hfree & _).
  rewrite launch_unfold. unfold register. rewrite Hgen. cbn [fst snd].
  split; [done |]. split; [| done].
  unfold stretch. cbn [instances set_instances]. by rewrite lookup_insert_eq.
Qed.

(** C1.  The generator appends to the prefix the least integer, counted
    from the running counter, whose name is not that of a live record, and
    moves the counter past it; the name that [launch] returns is that name
    and belongs to no live record; and in every sequence of registry
    operations the names returned by the launches with one prefix are
    pairwise distinct. *)
Theorem launch_names_distinct :
  (forall prefix r, exists n,
     generateDistinctName prefix r = (prefix +:+ pretty n, S n) /\
     unique r <= n /\
     instances r !! (prefix +:+ pretty n) = None /\
     forall k, unique r <= k < n ->
       is_Some (instances r !! (prefix +:+ pretty k))) /\
  (forall prefix callable r, exists name,
     (launch prefix callable r).1 = Ok name /\
     name = (generateDistinctName prefix r).1 /\
     instances r !! name = None) /\
  (forall prefix ops r, NoDup ((perform_all ops r).1 ≫= launched_as prefix)).
Proof.
  split; [exact generateDistinctName_spec |]. split.
  - intros prefix callable r.
    destruct (launch_spec prefix callable r) as (Hrun & _ & Hfree).
    eexists. split; [by rewrite Hrun |]. done.
  - intros prefix ops r. apply (perform_all_names prefix ops r).
Qed.

(** Two coroutines launched as "job" while both are live, then a third
    after the first two are gone. *)
Example three_jobs :
  (perform_all [OpLaunch "job" wait_forever; OpLaunch "job" wait_forever;
                OpResume "job0"; OpResume "job1"; OpLaunch "job" Return]
     empty_registry).1 ≫= launched_as "job" = ["job0"; "job1"; "job2"].
Proof. vm_compute. reflexivity. Qed.

(** A disambiguator below the counter is never tried again, one above it
    is skipped while its name is live. *)
Example counter_skips_live :
  generateDistinctName "job"
    (set_unique 3 (set_instances {[ "job3" := idle; "job4" := idle ]}
                     empty_registry)) = ("job5", 6).
Proof. vm_compute. reflexivity. Qed.

(** *** The exception relay *)

(** C2.  [launch] always answers with the name, whatever the body raises;
    a body that ends its first stretch by raising an exception that is no
    stop interrupt has it appended to the exception queue together with
    its name; [rethrow] does nothing on an empty queue and otherwise
    removes and raises the oldest entry; and over any sequence of registry
    operations the exceptions raised by [rethrow], followed by those still
    queued, are the ones queued at the start followed by the ones that
    escaped coroutine bodies, in the order they escaped. *)
Theorem exceptions_relayed_fifo :
  (forall prefix callable r, exists name, (launch prefix callable r).1 = Ok name) /\
  (forall prefix callable r e w,
     let name := (generateDistinctName prefix r).1 in
     run_body (new_CoroData name (clock r)) (phase r) callable (world r) =
       (Raised e, w) ->
     isa (exc_type e) Stop = false ->
     mExceptionQueue (launch prefix callable r).2 =
       mExceptionQueue r ++ [{| name := name; exc := e |}]) /\
  (forall r, mExceptionQueue r = [] -> rethrow r = (Ok tt, r)) /\
  (forall r first rest, mExceptionQueue r = first :: rest ->
     rethrow r = (Raise (exc first), set_queue rest r)) /\
  (forall ops r,
     ((perform_all ops r).1 ≫= rethrown_in) ++
       (exc <$> mExceptionQueue (perform_all ops r).2) =
     (exc <$> mExceptionQueue r) ++ ((perform_all ops r).1 ≫= escaped_in)).
Proof.
  split; [| split; [| split; [| split]]].
  - intros prefix callable r.
    destruct (launch_spec prefix callable r) as (Hrun & _).
    eexists. by rewrite Hrun.
  - intros prefix callable r e w name Hraised Hnostop.
    destruct (launch_spec prefix callable r) as (Hrun & Hstretch & _).
    fold name in Hrun, Hstretch. rewrite Hrun. cbn [snd].
    rewrite toplevel_queue, Hstretch, Hraised. unfold uncaught.
    by rewrite Hnostop.
  - intros r Hq. unfold rethrow. by rewrite Hq.
  - intros r first rest Hq. unfold rethrow. by rewrite Hq.
  - intros ops r. apply perform_all_queue.
Qed.

(** "launch("fetch", body) where body immediately throws
    RuntimeError("boom")": the launch returns a name and the next
    [rethrow] raises the exception. *)
Lemma exceptions_relayed_fifo_witness :
  mExceptionQueue (launch "fetch" (Throw boom) empty_registry).2 =
    [{| name := "fetch0"; exc := boom |}] /\
  rethrow (launch "fetch" (Throw boom) empty_registry).2 =
    (Raise boom, set_queue [] (launch "fetch" (Throw boom) empty_registry).2).
Proof.
  destruct exceptions_relayed_fifo as (_ & Hcapture & _ & Hpop & _).
  pose proof (Hcapture "fetch" (Throw boom) empty_registry boom [] eq_refl eq_refl)
    as Hq.
  split; [exact Hq |]. exact (Hpop _ _ [] Hq).
Defined.

(** Exceptions of different coroutines come back in the order in which
    they escaped; a stop interrupt is not relayed. *)
Example relay_in_order :
  (perform_all
     [OpLaunch "a" (Suspend (Throw boom));
      OpLaunch "b" (Throw other_error);
      OpLaunch "c" (Throw {| exc_type := Stopping; what := "" |});
      OpResume "a0"; OpRethrow; OpRethrow; OpRethrow]
     empty_registry).1 ≫= rethrown_in = [other_error; boom].
Proof. vm_compute. reflexivity. Qed.

(** *** Running up to the first suspension *)

Lemma run_body_first_stretch data body : forall w,
  mKilledBy data = "" ->
  (run_body data Running body w).2 = w ++ first_stretch_effects body.
Proof.
  induction body as [| e | e k IH | k _ | cleanup k IH]; intros w Hlive;
    try (simpl; by rewrite app_nil_r).
  - simpl. rewrite IH, <- app_assoc by done. reflexivity.
  - simpl. rewrite checkStop_quiet by done. by apply IH.
Qed.

Lemma stop_interrupt_phase data ph :
  mKilledBy data = "" -> ph <> Running -> is_Some (stop_interrupt data ph).
Proof. intros _ Hph. apply stop_interrupt_is_Some. by right. Qed.

(** In a stop phase the stretch of a coroutine nobody asked to stop ends
    at its first [checkStop]. *)
Lemma run_body_stopped data ph body : forall w,
  mKilledBy data = "" -> ph <> Running ->
  (run_body data ph body w).2 = stopped_stretch_world body w.
Proof.
  unfold stopped_stretch_world.
  induction body as [| e | e k IH | k _ | cleanup k _]; intros w Hlive Hph;
    try (simpl; by rewrite app_nil_r).
  - simpl. rewrite IH by done. by rewrite <- !app_assoc.
  - destruct (stop_interrupt_phase data ph Hlive Hph) as [stop Hstop].
    simpl. unfold checkStop. rewrite Hstop, app_nil_r.
    destruct cleanup as [f |]; [| done].
    by destruct (f w) as [[[] | e] w'].
Qed.

(** Where the stretch of a coroutine nobody asked to stop ends. *)
Lemma run_body_first_wait data ph body : forall w,
  mKilledBy data = "" ->
  first_wait (stopping ph) body =
    match (run_body data ph body w).1 with
    | Suspended k => Some k
    | _ => None
    end.
Proof.
  induction body as [| e | e k IH | k _ | cleanup k IH]; intros w Hlive;
    try reflexivity.
  - simpl. by apply IH.
  - assert (Hcase : ph = Running \/ ph <> Running)
      by (destruct ph; [by left | by right ..]).
    destruct Hcase as [-> | Hph].
    + simpl. rewrite checkStop_quiet by done. by apply IH.
    + destruct (stop_interrupt_phase data ph Hlive Hph) as [stop Hstop].
      replace (stopping ph) with true by (by destruct ph).
      simpl. unfold checkStop. rewrite Hstop.
      destruct cleanup as [f |]; [| done].
      by destruct (f w) as [[[] | e] w'].
Qed.

Lemma toplevel_others name callable r other :
  other <> name ->
  instances (toplevel name callable r).2 !! other = instances r !! other /\
  suspended (toplevel name callable r).2 !! other = suspended r !! other.
Proof.
  intros Hother. unfold toplevel.
  destruct (stretch name callable r) as [[out w] |]; [| done].
  destruct out as [| e | k]; [| destruct (isa (exc_type e) Stop) |];
    cbn [snd instances suspended reclaim saveException set_suspended
         set_instances set_queue set_world];
    by rewrite ?lookup_delete_ne, ?lookup_insert_ne.
Qed.

(** How the wrapper leaves the coroutine it ran. *)
Lemma toplevel_self name callable r data :
  instances r !! name = Some data ->
  let ran := run_body data (phase r) callable (world r) in
  let r' := (toplevel name callable r).2 in
  world r' = ran.2 /\
  match ran.1 with
  | Suspended k => suspended r' !! name = Some k /\ instances r' !! name = Some data
  | _ => suspended r' !! name = None /\ instances r' !! name = None
  end.
Proof.
  intros Hdata ran r'. subst r'. unfold toplevel, stretch. rewrite Hdata.
  fold ran. destruct ran as [out w].
  destruct out as [| e | k]; [| destruct (isa (exc_type e) Stop) |];
    cbn [fst snd world instances suspended reclaim saveException
         set_suspended set_instances set_queue set_world];
    rewrite ?lookup_delete_eq, ?lookup_insert_eq; done.
Qed.

(** C7.  [launch] runs the new coroutine at once, on the caller's side of
    the world: when the caller holds the name, the world is the one the
    body's first stretch, up to its first suspension point or its end, has
    left.  While no stop is in effect these are the world of the caller
    followed by every effect the body performs before it first suspends; in
    a stop phase they are the world of the caller followed by the effects
    the body performs before its first [checkStop], and by what the cleanup
    of that [checkStop] does.  A body that suspended is live and holds the
    rest of the body; one that ended has its record reclaimed already.
    Which of the two happened, and the rest that is held, are read off the
    body.  No other coroutine has been touched. *)
Theorem launch_runs_to_first_suspension prefix callable r :
  let name := (generateDistinctName prefix r).1 in
  let data := new_CoroData name (clock r) in
  let ran := run_body data (phase r) callable (world r) in
  let r' := (launch prefix callable r).2 in
  (launch prefix callable r).1 = Ok name /\
  world r' = ran.2 /\
  (phase r = Running ->
     world r' = world r ++ first_stretch_effects callable) /\
  (phase r <> Running ->
     world r' = stopped_stretch_world callable (world r)) /\
  match ran.1 with
  | Suspended k => suspended r' !! name = Some k /\ instances r' !! name = Some data
  | _ => suspended r' !! name = None /\ instances r' !! name = None
  end /\
  suspended r' !! name = first_wait (stopping (phase r)) callable /\
  instances r' !! name =
    match first_wait (stopping (phase r)) callable with
    | Some _ => Some data
    | None => None
    end /\
  (forall other, other <> name ->
     instances r' !! other = instances r !! other /\
     suspended r' !! other = suspended r !! other).
Proof.
  intros name data ran r'.
  destruct (launch_spec prefix callable r) as (Hrun & _ & Hfree).
  fold name in Hrun, Hfree. fold data in Hrun.
  set (r0 := set_instances _ _) in Hrun.
  assert (Hr' : r' = (toplevel name callable r0).2) by (subst r'; by rewrite Hrun).
  assert (Hdata : instances r0 !! name = Some data).
  { subst r0. cbn [instances set_instances]. by rewrite lookup_insert_eq. }
  destruct (toplevel_self name callable r0 data Hdata) as [Hworld Hself].
  change (run_body data (phase r0) callable (world r0)) with ran in Hworld, Hself.
  rewrite <- Hr' in Hworld, Hself.
  pose proof (run_body_first_wait data (phase r) callable (world r) eq_refl)
    as Hwait.
  fold ran in Hwait.
  split; [by rewrite Hrun |]. split; [exact Hworld |].
  split; [| split; [| split; [exact Hself |]]].
  - intros Hphase. rewrite Hworld. subst ran. rewrite Hphase.
    by apply run_body_first_stretch.
  - intros Hphase. rewrite Hworld. subst ran.
    by apply run_body_stopped.
  - rewrite Hwait. split; [| split].
    + by destruct (ran.1); destruct Hself.
    + by destruct (ran.1); destruct Hself.
    + intros other Hother. rewrite Hr'.
      destruct (toplevel_others name callable r0 other Hother) as [Hi Hs].
      rewrite Hi, Hs. subst r0.
      cbn [instances suspended set_instances set_unique].
      by rewrite lookup_insert_ne.
Qed.

Lemma launch_runs_to_first_suspension_witness :
  (world (launch "fetch" fetch_body empty_registry).2 =
     ["request sent"; "timer armed"] /\
   suspended (launch "fetch" fetch_body empty_registry).2 !! "fetch0" =
     Some (Effect "reply handled" Return)) /\
  (world (launch "fetch" fetch_body
            (enter_phase PhaseStopping empty_registry)).2 = ["request sent"] /\
   suspended (launch "fetch" fetch_body
                (enter_phase PhaseStopping empty_registry)).2 !! "fetch0" = None).
Proof.
  split.
  - destruct (launch_runs_to_first_suspension "fetch" fetch_body empty_registry)
      as (_ & _ & Hworld & _ & Hself & _).
    split; [exact (Hworld eq_refl) | exact (proj1 Hself)].
  - destruct (launch_runs_to_first_suspension "fetch" fetch_body
                (enter_phase PhaseStopping empty_registry))
      as (_ & _ & _ & Hworld & _ & Hwait & _).
    split; [| exact Hwait].
    apply Hworld. discriminate.
Defined.

(** Launched while the viewer is stopping, a body does its work up to its
    first [checkStop], whose cleanup still runs, and no more. *)
Example launch_while_stopping :
  let body :=
    Effect "request sent"
      (CheckStop (Some close_queue) (Effect "timer armed" (Suspend Return))) in
  let r' := (launch "fetch" body (enter_phase PhaseStopping empty_registry)).2 in
  world r' = ["request sent"; "queue closed"] /\
  instances r' !! "fetch0" = None /\ suspended r' !! "fetch0" = None /\
  mExceptionQueue r' = [].
Proof. repeat split. Qed.

(** A body that ends in its first stretch has done all its work, and left
    no record, when [launch] answers. *)
Example launch_runs_to_completion :
  let r' := (launch "log" (Effect "line written" Return) empty_registry).2 in
  world r' = ["line written"] /\ instances r' !! "log0" = None.
Proof. split; reflexivity. Qed.
End LLCoros.

(** ** More about slices of a result set *)

Module SliceFacts.
Import InventoryListener.
Local Open Scope Z_scope.

(** The bounds as [getSlice] computes them. *)
Definition slice_start (self : InvResultSet) (index : Z) : Z :=
  llclamp index 0 (getLength self).

Definition slice_end (self : InvResultSet) (index count : Z) : Z :=
  llclamp (Int32.add index (llclamp count 0 MAX_ITEM_LIMIT)) 0 (getLength self).

(** [sample_set] with a [getSingle] that answers out of range too. *)
Definition unchecked_set : InvResultSet :=
  {| getLength := 5;
     getSingle := fun i => if (0 <=? i) && (i <? 5)
                           then LLSD.Integer (10 + i) else LLSD.Str "out of range";
     mName := "items" |}.

Lemma getSlice_unfold self index count :
  getSlice self index count =
  if slice_end self index count >? slice_start self index
  then LLSD.Array
         (getSlice_loop self
            (Z.to_nat (slice_end self index count - slice_start self index))
            (slice_start self index) (slice_end self index count)
            (LLSD.array_assign LLSD.emptyArray
               (Z.to_nat (slice_end self index count - 1)) LLSD.Undef))
  else LLSD.Array LLSD.emptyArray.
Proof. reflexivity. Qed.

Lemma slice_bounds self index count :
  0 <= getLength self ->
  0 <= slice_start self index <= getLength self /\
  0 <= slice_end self index count <= getLength self.
Proof.
  intros HL. split; apply llclamp_bounds; exact HL.
Qed.

(** Two result sets that agree on the entries the loop visits are filled
    alike. *)
Lemma getSlice_loop_ext rs rs' n : forall i end_ result,
  0 <= i -> end_ <= Int32.INT_MAX ->
  (forall j, i <= j < end_ -> getSingle rs j = getSingle rs' j) ->
  getSlice_loop rs n i end_ result = getSlice_loop rs' n i end_ result.
Proof.
  induction n as [|n IH]; intros i end_ result Hi Hmax Hsame; [reflexivity |].
  simpl. destruct (Z.ltb_spec i end_) as [Hlt | _]; [| reflexivity].
  assert (Hadd : Int32.add i 1 = i + 1).
  { apply Int32.add_exact.
    unfold Int32.in_range, Int32.INT_MIN, Int32.INT_MAX in *. lia. }
  rewrite Hadd, (Hsame i) by lia. apply IH; [lia | lia |].
  intros j Hj. apply Hsame. lia.
Qed.

(** The array that [getSlice] returns, in terms of the bounds it
    computed. *)
Lemma getSlice_shape self index count :
  0 <= getLength self <= Int32.INT_MAX ->
  let start := slice_start self index in
  let end_ := slice_end self index count in
  (end_ <= start -> getSlice self index count = LLSD.Array []) /\
  (start < end_ ->
     exists l, getSlice self index count = LLSD.Array l /\
       length l = Z.to_nat end_ /\
       (forall i, start <= i < end_ ->
          l !! Z.to_nat i = Some (getSingle self i)) /\
       (forall i, 0 <= i < start -> l !! Z.to_nat i = Some LLSD.Undef)).
Proof.
  intros HL start end_.
  destruct (slice_bounds self index count (proj1 HL)) as [Hs He].
  fold start in Hs. fold end_ in He.
  rewrite getSlice_unfold. fold start end_. split.
  - intros Hle. destruct (Z.gtb_spec end_ start); [lia | reflexivity].
  - intros Hlt. destruct (Z.gtb_spec end_ start); [| lia].
    set (result := LLSD.array_assign LLSD.emptyArray (Z.to_nat (end_ - 1)) LLSD.Undef).
    assert (Hlen : length result = Z.to_nat end_).
    { subst result. rewrite LLSD.length_array_assign. simpl. lia. }
    destruct (getSlice_loop_spec self (Z.to_nat (end_ - start)) start end_ result)
      as (Hl & Hfill & Hrest); try lia.
    eexists. split; [reflexivity |]. split; [lia |]. split; [exact Hfill |].
    intros i Hi. rewrite Hrest by lia.
    subst result. apply array_assign_empty_undef. lia.
Qed.

(** X1.  [getSingle] is only ever asked for entries of the result set: what it
    would answer outside [[0, getLength())] has no influence on a slice. *)
Theorem getSlice_reads_valid_only rs rs' index count :
  0 <= getLength rs <= Int32.INT_MAX ->
  getLength rs' = getLength rs ->
  (forall i, 0 <= i < getLength rs -> getSingle rs i = getSingle rs' i) ->
  getSlice rs index count = getSlice rs' index count.
Proof.
  intros HL Hlen Hsame.
  destruct (slice_bounds rs index count (proj1 HL)) as [Hs He].
  rewrite !getSlice_unfold. unfold slice_start, slice_end in *.
  rewrite Hlen. destruct (_ >? _); [| reflexivity].
  f_equal. apply getSlice_loop_ext; [lia | lia |].
  intros j Hj. apply Hsame. lia.
Qed.

Lemma getSlice_reads_valid_only_witness :
  getSlice sample_set (-2) 100 = getSlice unchecked_set (-2) 100.
Proof.
  apply getSlice_reads_valid_only.
  - unfold Int32.INT_MAX. simpl. lia.
  - reflexivity.
  - intros i Hi. simpl in *.
    destruct (Z.leb_spec 0 i); [| lia]. destruct (Z.ltb_spec i 5); [| lia].
    reflexivity.
Defined.

(** X2.  A request that does not overlap the result set yields the empty array:
    no entries asked for, a start at or past the end, or a window that
    ends at or before entry 0. *)
Theorem getSlice_no_overlap self index count :
  Int32.in_range index ->
  0 <= getLength self <= Int32.INT_MAX ->
  count <= 0 \/ getLength self <= index \/
    index + llclamp count 0 MAX_ITEM_LIMIT <= 0 ->
  getSlice self index count = LLSD.Array [].
Proof.
  intros Hidx HL Hout.
  apply (proj1 (getSlice_shape self index count HL)).
  unfold slice_start, slice_end.
  pose proof (llclamp_bounds count 0 MAX_ITEM_LIMIT
                ltac:(unfold MAX_ITEM_LIMIT; lia)) as Hc.
  pose proof (llclamp_bounds index 0 (getLength self) ltac:(lia)) as Hs.
  destruct Hout as [Hcount | [Hpast | Hbefore]].
  - assert (Hzero : llclamp count 0 MAX_ITEM_LIMIT = 0).
    { unfold llclamp, MAX_ITEM_LIMIT. destruct (Z.ltb_spec count 0); [done |].
      destruct (Z.gtb_spec count 100); lia. }
    rewrite Hzero, Int32.add_exact by (by rewrite Z.add_0_r).
    rewrite Z.add_0_r. lia.
  - rewrite (llclamp_above index) by lia.
    apply llclamp_bounds. lia.
  - rewrite Int32.add_exact.
    + destruct (Z.eq_dec (index + llclamp count 0 MAX_ITEM_LIMIT) 0) as [-> | Hne].
      * rewrite llclamp_inside by lia. lia.
      * rewrite (llclamp_below (index + _)) by lia. lia.
    + unfold Int32.in_range, Int32.INT_MIN, Int32.INT_MAX, MAX_ITEM_LIMIT in *. lia.
Qed.

Lemma getSlice_no_overlap_witness :
  getSlice sample_set 5 10 = LLSD.Array [] /\
  getSlice sample_set (-20) 20 = LLSD.Array [] /\
  getSlice sample_set 2 (-1) = LLSD.Array [].
Proof.
  assert (Hr : forall z, -100 <= z <= 100 -> Int32.in_range z).
  { intros z Hz. unfold Int32.in_range, Int32.INT_MIN, Int32.INT_MAX. lia. }
  assert (HL : 0 <= getLength sample_set <= Int32.INT_MAX)
    by (unfold Int32.INT_MAX; simpl; lia).
  split; [| split].
  - apply getSlice_no_overlap; [apply Hr; lia | exact HL |].
    right. left. simpl. lia.
  - apply getSlice_no_overlap; [apply Hr; lia | exact HL |].
    right. right. vm_compute. discriminate.
  - apply getSlice_no_overlap; [apply Hr; lia | exact HL |].
    left. lia.
Defined.

(** X3.  Asking for more than [MAX_ITEM_LIMIT] entries is asking for
    [MAX_ITEM_LIMIT]. *)
Theorem getSlice_count_saturates self index count :
  MAX_ITEM_LIMIT <= count ->
  getSlice self index count = getSlice self index MAX_ITEM_LIMIT.
Proof.
  intros Hc. rewrite !getSlice_unfold. unfold slice_end.
  rewrite (llclamp_above count) by (unfold MAX_ITEM_LIMIT in *; lia).
  rewrite (llclamp_above MAX_ITEM_LIMIT) by (unfold MAX_ITEM_LIMIT; lia).
  reflexivity.
Qed.

Lemma getSlice_count_saturates_witness :
  getSlice sample_set 1 5000 = getSlice sample_set 1 MAX_ITEM_LIMIT.
Proof. apply getSlice_count_saturates. unfold MAX_ITEM_LIMIT. lia. Defined.

(** X4.  Reading a result set page by page, [MAX_ITEM_LIMIT] entries at a time
    from index 0, returns every entry, in the page it falls into and at its
    own index. *)
Theorem getSlice_pages_cover self i :
  0 <= getLength self <= Int32.INT_MAX - MAX_ITEM_LIMIT ->
  0 <= i < getLength self ->
  exists l,
    getSlice self (MAX_ITEM_LIMIT * (i / MAX_ITEM_LIMIT)) MAX_ITEM_LIMIT =
      LLSD.Array l /\
    l !! Z.to_nat i = Some (getSingle self i).
Proof.
  intros HL Hi.
  set (index := MAX_ITEM_LIMIT * (i / MAX_ITEM_LIMIT)).
  assert (Hpage : index <= i < index + MAX_ITEM_LIMIT).
  { subst index. unfold MAX_ITEM_LIMIT.
    pose proof (Z.mod_pos_bound i 100 ltac:(lia)).
    pose proof (Z.div_mod i 100 ltac:(lia)). lia. }
  assert (H0 : 0 <= index).
  { subst index. unfold MAX_ITEM_LIMIT. apply Z.mul_nonneg_nonneg; [lia |].
    apply Z.div_pos; lia. }
  assert (HL' : 0 <= getLength self <= Int32.INT_MAX)
    by (unfold MAX_ITEM_LIMIT, Int32.INT_MAX in *; lia).
  destruct (getSlice_shape self index MAX_ITEM_LIMIT HL') as [_ Hfull].
  unfold slice_start, slice_end in Hfull.
  rewrite (llclamp_inside MAX_ITEM_LIMIT) in Hfull by (unfold MAX_ITEM_LIMIT; lia).
  rewrite Int32.add_exact in Hfull
    by (unfold Int32.in_range, Int32.INT_MIN, Int32.INT_MAX, MAX_ITEM_LIMIT in *; lia).
  rewrite (llclamp_inside index) in Hfull by lia.
  assert (Hend : i < llclamp (index + MAX_ITEM_LIMIT) 0 (getLength self)).
  { unfold llclamp. destruct (Z.ltb_spec (index + MAX_ITEM_LIMIT) 0); [lia |].
    destruct (Z.gtb_spec (index + MAX_ITEM_LIMIT) (getLength self)); lia. }
  destruct Hfull as (l & Hl & _ & Hfill & _); [lia |].
  exists l. split; [exact Hl |]. apply Hfill. lia.
Qed.

Lemma getSlice_pages_cover_witness :
  exists l, getSlice sample_set 0 MAX_ITEM_LIMIT = LLSD.Array l /\
            l !! 3%nat = Some (LLSD.Integer 13).
Proof.
  apply (getSlice_pages_cover sample_set 3).
  - unfold Int32.INT_MAX, MAX_ITEM_LIMIT. simpl. lia.
  - simpl. lia.
Defined.
End SliceFacts.

(** ** llinventorylistener.cpp: the other requests *)

Module InventoryRequests.
Import InventoryListener.

(** [llsd::inArray]: the entries of an array, nothing for any other
    value. *)
Definition inArray (v : LLSD.t) : list LLSD.t :=
  match v with
  | LLSD.Array l => l
  | _ => []
  end.

(** [LLInventoryListener::closeResult], acting on the instances that
    [InvResultSet]'s tracker holds, by integer key. *)
Definition closeResult (conv : LLSD.t -> Z) (data : LLSD.t)
    (tracker : gmap Z InvResultSet) : gmap Z InvResultSet :=
  let results := LLSD.get data "result" in
  let results :=
    if LLSD.isInteger results then LLSD.Array [results] else results in
  foldl (fun tracker result =>
           match tracker !! asInteger conv result with
           | Some _ => delete (asInteger conv result) tracker
           | None => tracker
           end)
        tracker (inArray results).

(** The keys that a [closeResult] request names. *)
Definition named_keys (conv : LLSD.t -> Z) (data : LLSD.t) : list Z :=
  match LLSD.get data "result" with
  | LLSD.Integer key => [key]
  | LLSD.Array l => asInteger conv <$> l
  | _ => []
  end.

Section GetItemsInfo.
(** The inventory model: [gInventory.getItem] and [gInventory.getCategory]
    answer with a null pointer for an id they do not know. *)
Variable Item Category : Type.
Variable getItem : string -> option Item.
Variable getCategory : string -> option Category.

(** The loop of [LLInventoryListener::getItemsInfo] over the requested
    ids, filling [mCategories] and [mItems] by [push_back]. *)
Fixpoint getItemsInfo_loop (ids : list string) (mCategories : list Category)
    (mItems : list Item) : list Category * list Item :=
  match ids with
  | [] => (mCategories, mItems)
  | it :: rest =>
      match getItem it with
      | Some item => getItemsInfo_loop rest mCategories (mItems ++ [item])
      | None =>
          match getCategory it with
          | Some cat => getItemsInfo_loop rest (mCategories ++ [cat]) mItems
          | None => getItemsInfo_loop rest mCategories mItems
          end
      end
  end.

(** The two result sets of a [getItemsInfo] request. *)
Definition getItemsInfo (ids : list string) : list Category * list Item :=
  getItemsInfo_loop ids [] [].

Definition as_category (it : string) : option Category :=
  match getItem it with
  | Some _ => None
  | None => getCategory it
  end.

Lemma getItemsInfo_loop_spec ids : forall mCategories mItems,
  getItemsInfo_loop ids mCategories mItems =
  (mCategories ++ omap as_category ids, mItems ++ omap getItem ids).
Proof.
  induction ids as [|it rest IH]; intros mCategories mItems.
  - simpl. by rewrite !app_nil_r.
  - simpl. unfold as_category at 1.
    destruct (getItem it) as [item |].
    + rewrite IH, <- app_assoc. reflexivity.
    + destruct (getCategory it) as [cat |].
      * rewrite IH, <- app_assoc. reflexivity.
      * apply IH.
Qed.

(** X5.  [getItemsInfo] reports, in the order of the request, the items among
    the ids and the categories among the ids that are no items: an id is
    never reported twice, an id known as neither is left out, and the two
    result sets together are no longer than the request. *)
Theorem getItemsInfo_partition ids :
  getItemsInfo ids = (omap as_category ids, omap getItem ids) /\
  (length (getItemsInfo ids).1 + length (getItemsInfo ids).2 <= length ids)%nat /\
  (forall it, is_Some (getItem it) -> as_category it = None).
Proof.
  unfold getItemsInfo. rewrite getItemsInfo_loop_spec. simpl.
  split; [reflexivity |]. split.
  - induction ids as [|it rest IH]; [done |].
    cbn [omap list_omap length]. unfold as_category at 1.
    destruct (getItem it) as [item |]; [cbn [length]; lia |].
    destruct (getCategory it) as [cat |]; cbn [length]; lia.
  - intros it [item Hitem]. unfold as_category. by rewrite Hitem.
Qed.
End GetItemsInfo.

(** An id known both as an item and as a category is reported as an item
    only; an unknown id is left out. *)
Example getItemsInfo_mixed :
  getItemsInfo string string
    (fun it => if String.eqb it "hat" then Some "Hat"
               else if String.eqb it "both" then Some "Both (item)" else None)
    (fun it => if String.eqb it "clothes" then Some "Clothes"
               else if String.eqb it "both" then Some "Both (folder)" else None)
    ["clothes"; "both"; "gone"; "hat"] =
  (["Clothes"], ["Both (item)"; "Hat"]).
Proof. reflexivity. Qed.

(** *** Closing result sets *)

Lemma close_step_lookup (tracker : gmap Z InvResultSet) key k :
  match tracker !! key with
  | Some _ => delete key tracker
  | None => tracker
  end !! k = if decide (k = key) then None else tracker !! k.
Proof.
  destruct (tracker !! key) eqn:Hkey; destruct (decide (k = key)) as [-> | Hne].
  - apply lookup_delete_eq.
  - by apply lookup_delete_ne.
  - exact Hkey.
  - reflexivity.
Qed.

Lemma close_fold_lookup conv results : forall (tracker : gmap Z InvResultSet) k,
  foldl (fun tracker result =>
           match tracker !! asInteger conv result with
           | Some _ => delete (asInteger conv result) tracker
           | None => tracker
           end) tracker results !! k =
  if decide (k ∈ asInteger conv <$> results) then None else tracker !! k.
Proof.
  induction results as [|result rest IH]; intros tracker k.
  - reflexivity.
  - simpl. rewrite IH, close_step_lookup.
    destruct (decide (k ∈ asInteger conv <$> rest)) as [Hin | Hout].
    + rewrite decide_True; [done | by right].
    + destruct (decide (k = asInteger conv result)) as [-> | Hne].
      * rewrite decide_True; [done | by left].
      * rewrite decide_False; [done |].
        intros [? | ?]%elem_of_cons; done.
Qed.

Lemma named_keys_inArray conv data :
  named_keys conv data =
  asInteger conv <$>
    inArray (if LLSD.isInteger (LLSD.get data "result")
             then LLSD.Array [LLSD.get data "result"]
             else LLSD.get data "result").
Proof. unfold named_keys. by destruct (LLSD.get data "result"). Qed.

(** X6.  [closeResult] releases exactly the result sets whose keys the request
    names, whether ["result"] is one integer or an array, and leaves every
    other one in place; keys that name no result set, and requests whose
    ["result"] is neither an integer nor an array, change nothing, so that
    closing twice is harmless. *)
Theorem closeResult_releases conv data (tracker : gmap Z InvResultSet) :
  (forall k, closeResult conv data tracker !! k =
     if decide (k ∈ named_keys conv data) then None else tracker !! k) /\
  closeResult conv data (closeResult conv data tracker) =
    closeResult conv data tracker /\
  ((forall k, k ∈ named_keys conv data -> tracker !! k = None) ->
     closeResult conv data tracker = tracker).
Proof.
  assert (Hlook : forall tr k, closeResult conv data tr !! k =
            if decide (k ∈ named_keys conv data) then None else tr !! k).
  { intros tr k. unfold closeResult. cbv zeta.
    rewrite close_fold_lookup, named_keys_inArray. reflexivity. }
  split; [apply Hlook |]. split.
  - apply map_eq. intros k. rewrite !Hlook.
    by destruct (decide (k ∈ named_keys conv data)).
  - intros Hnone. apply map_eq. intros k. rewrite Hlook.
    destruct (decide (k ∈ named_keys conv data)) as [Hin | _]; [| done].
    symmetry. by apply Hnone.
Qed.

Lemma closeResult_releases_witness :
  closeResult (fun _ => 0%Z) (LLSD.Map [("result", LLSD.Str "all")])
    {[ 7%Z := sample_set ]} = {[ 7%Z := sample_set ]}.
Proof.
  apply (proj2 (proj2 (closeResult_releases (fun _ => 0%Z)
                         (LLSD.Map [("result", LLSD.Str "all")])
                         {[ 7%Z := sample_set ]}))).
  intros k Hk. simpl in Hk. by inversion Hk.
Defined.

Example closeResult_one_of_two :
  closeResult (fun _ => 0%Z)
    (LLSD.Map [("result", LLSD.Array [LLSD.Integer 7%Z; LLSD.Integer 9%Z])])
    {[ 7%Z := sample_set; 8%Z := sample_set ]} !! 8%Z = Some sample_set /\
  closeResult (fun _ => 0%Z) (LLSD.Map [("result", LLSD.Integer 7%Z)])
    {[ 7%Z := sample_set; 8%Z := sample_set ]} !! 7%Z = None.
Proof. split; reflexivity. Qed.
End InventoryRequests.

(** ** More about the filtered collector *)

Module CollectorFacts.
Import InventoryCollector.
Local Open Scope Z_scope.

(** The collector with another link filter. *)
Definition with_link_filter (f : EFilterLink) (self : LLFilteredCollector)
    : LLFilteredCollector :=
  {| mType := mType self; mName := mName self; mDesc := mDesc self;
     mLinkFilter := f; mItemLimit := mItemLimit self;
     mItemCount := mItemCount self |}.

Definition is_link (x : candidate) : bool :=
  match x with
  | OfCat c => cat_getIsLinkType c
  | OfItem i => item_getIsLinkType i
  end.

Definition folder (name : string) (link : bool) : candidate :=
  OfCat {| cat_getName := name; cat_getIsLinkType := link |}.

Definition searching (desc : string) (type : EType) : LLFilteredCollector :=
  {| mType := type; mName := ""; mDesc := desc; mLinkFilter := INCLUDE_LINKS;
     mItemLimit := 0; mItemCount := 0 |}.

Lemma empty_true s : empty s = true <-> s = "".
Proof. unfold empty. apply String.eqb_eq. Qed.

(** X7.  A description filter keeps every category out: categories have no
    description to match. *)
Theorem desc_filter_excludes_categories self cat :
  mDesc self <> "" -> passes self (OfCat cat) = false.
Proof.
  intros Hdesc. unfold passes, checkagainstNameDesc. cbn [cat_ptr item_ptr].
  assert (Hempty : empty (mDesc self) = false).
  { destruct (empty (mDesc self)) eqn:E; [| done]. by apply empty_true in E. }
  rewrite Hempty. rewrite bool_decide_eq_true_2 by (by eexists).
  cbn. by rewrite andb_false_r.
Qed.

Lemma desc_filter_excludes_categories_witness :
  passes (searching "red" AT_UNKNOWN) (folder "red things" false) = false.
Proof. apply desc_filter_excludes_categories. discriminate. Defined.

(** X8.  With an asset type asked for, an item passes only if it has that very
    type, and a category only if the type asked for is [AT_CATEGORY]. *)
Theorem type_filter_sound self x :
  mType self <> AT_UNKNOWN ->
  passes self x = true ->
  match x with
  | OfItem item => item_getType item = mType self
  | OfCat _ => mType self = AT_CATEGORY
  end.
Proof.
  intros Hknown Hpass. unfold passes in Hpass.
  apply andb_true_iff in Hpass as [Hpass _].
  apply andb_true_iff in Hpass as [Htype _].
  unfold checkagainstType in Htype.
  destruct (decide (mType self = AT_UNKNOWN)); [done |].
  destruct x as [cat | item]; cbn [cat_ptr item_ptr] in Htype.
  - rewrite bool_decide_eq_true_2 in Htype by (by eexists).
    destruct (bool_decide (mType self = AT_CATEGORY)) eqn:Hcat.
    + by apply bool_decide_eq_true in Hcat.
    + discriminate.
  - rewrite bool_decide_eq_false_2 in Htype by (by intros [? ?]).
    cbn in Htype. by destruct (decide (item_getType item = mType self)).
Qed.

Lemma type_filter_sound_witness :
  item_getType {| item_getName := "a"; item_getDescription := "";
                  item_getType := AT_OTHER 7; item_getIsLinkType := false |} =
  mType (searching "" (AT_OTHER 7)).
Proof.
  apply (type_filter_sound (searching "" (AT_OTHER 7)) (note "a")).
  - discriminate.
  - reflexivity.
Defined.

Lemma passes_link_filter self x :
  passes self x =
  checkagainstType self (cat_ptr x) (item_ptr x) &&
  checkagainstNameDesc self (cat_ptr x) (item_ptr x) &&
  match mLinkFilter self with
  | INCLUDE_LINKS => true
  | EXCLUDE_LINKS => negb (is_link x)
  | ONLY_LINKS => is_link x
  end.
Proof.
  unfold passes. f_equal. unfold checkagainstLinks. fold (is_link x).
  destruct (mLinkFilter self), (is_link x); reflexivity.
Qed.

(** X9.  The three link filters: what passes with [INCLUDE_LINKS] passes with
    exactly one of [EXCLUDE_LINKS] and [ONLY_LINKS], the other filters
    being equal; what passes with either of these passes with
    [INCLUDE_LINKS]. *)
Theorem link_filters_split self x :
  passes (with_link_filter INCLUDE_LINKS self) x =
  xorb (passes (with_link_filter EXCLUDE_LINKS self) x)
       (passes (with_link_filter ONLY_LINKS self) x) /\
  passes (with_link_filter ONLY_LINKS self) x =
    passes (with_link_filter INCLUDE_LINKS self) x && is_link x.
Proof.
  rewrite !passes_link_filter. cbn [with_link_filter mLinkFilter].
  change (checkagainstType (with_link_filter _ self)) with (checkagainstType self).
  change (checkagainstNameDesc (with_link_filter _ self))
    with (checkagainstNameDesc self).
  destruct (checkagainstType self _ _), (checkagainstNameDesc self _ _),
    (is_link x); split; reflexivity.
Qed.

Section DefaultRequest.
Variable asString : LLSD.t -> string.
Variable lookup : LLSD.t -> EType.
Variable eq_literal : LLSD.t -> string -> bool.

Lemma get_absent data key : LLSD.has data key = false -> LLSD.get data key = LLSD.Undef.
Proof.
  unfold LLSD.has, LLSD.get. destruct data; try done.
  by destruct (LLSD.assoc key m).
Qed.

(** X10.  A request that names no filter at all (an undefined LLSD value reads
    as the empty string) collects everything it is offered. *)
Theorem no_filter_passes_all data x :
  asString LLSD.Undef = "" ->
  LLSD.has data "name" = false -> LLSD.has data "desc" = false ->
  LLSD.has data "type" = false -> LLSD.has data "filter_links" = false ->
  passes (make asString lookup eq_literal data) x = true.
Proof.
  intros Hundef Hname Hdesc Htype Hlinks.
  rewrite passes_link_filter. unfold make.
  rewrite Htype, Hlinks, (get_absent _ _ Hname), (get_absent _ _ Hdesc), Hundef.
  cbn [mType mName mDesc mLinkFilter].
  unfold checkagainstType, checkagainstNameDesc. cbn.
  destruct x as [cat | item]; cbn; by rewrite ?andb_false_r.
Qed.
End DefaultRequest.

Lemma no_filter_passes_all_witness :
  passes (make (fun _ => "") (fun _ => AT_OTHER 1) (fun _ _ => true)
            (LLSD.Map [("folder_id", LLSD.Str "root"); ("limit", LLSD.Integer 3)]))
    (folder "Objects" true) = true.
Proof. apply no_filter_passes_all; reflexivity. Defined.
End CollectorFacts.

(** ** rlvhandler.cpp: enabling, reply commands, and more on owner chat *)

Module RlvCommands.
Import Rlv.

(** [RlvHandler::canEnable]; the startup states are ordered, and
    [STATE_LOGIN_CLEANUP] is one of them ([llstartup.h]). *)
Definition canEnable (STATE_LOGIN_CLEANUP startup_state : Z) : bool :=
  (startup_state <=? STATE_LOGIN_CLEANUP)%Z.

(** [RlvHandler::setEnabled]: the value returned and [mIsEnabled] as the
    call leaves it. *)
Definition setEnabled (STATE_LOGIN_CLEANUP startup_state : Z) (enable : bool)
    (mIsEnabled : bool) : bool * bool :=
  if Bool.eqb mIsEnabled enable then (enable, mIsEnabled)
  else
    let mIsEnabled :=
      if enable && canEnable STATE_LOGIN_CLEANUP startup_state
      then true else mIsEnabled in
    (mIsEnabled, mIsEnabled).

(** Modelled from the spec: [EBehaviour] comes from [rlvdefines.h], outside
    the files covered here; the behaviours that [rlvhandler.cpp] names are
    listed. *)
Inductive EBehaviour : Type :=
| Version
| VersionNew
| VersionNum
| OtherBehaviour (code : nat).

#[global] Instance EBehaviour_eq_dec : EqDecision EBehaviour.
Proof. solve_decision. Defined.

(** The pieces of a message joined by commas. *)
Fixpoint join_commas (pieces : list string) : string :=
  match pieces with
  | [] => ""
  | piece :: rest =>
      piece +:+ match rest with
                | [] => ""
                | _ => String ","%char (join_commas rest)
                end
  end.

Fixpoint has_comma (s : string) : bool :=
  match s with
  | EmptyString => false
  | String c rest => Ascii.eqb c ","%char || has_comma rest
  end.

Section ReplyCommands.
(** What the reply handlers read of a command, the agent's id, and the
    helpers of [rlvcommon.h] and [llstring.h] they call: the conversion of
    the parameter to a channel number fails or yields the number. *)
Variable RlvCommand : Type.
Variable getParam getOption getObjectID : RlvCommand -> string.
Variable hasOption : RlvCommand -> bool.
Variable getBehaviourType : RlvCommand -> EBehaviour.
Variable agentID : string.
Variable convertToS32 : string -> option Z.
Variable isValidReplyChannel : Z -> bool -> bool.
Variable getVersion : bool -> string.
Variable getVersionNum getVersionImplNum : string.

(** [ReplyHandlerFunc]: the code returned and [strReply] as the handler
    leaves it. *)
Definition ReplyHandlerFunc : Type := RlvCommand -> string -> ECmdRet * string.

(** [CommandHandlerBaseImpl<EParamType::Reply>::processCommand]; the chat
    replies sent with [Util::sendChatReply] are collected, oldest first. *)
Definition Reply_processCommand (rlvCmd : RlvCommand) (pHandler : ReplyHandlerFunc)
    (sent : list (Z * string)) : ECmdRet * list (Z * string) :=
  match convertToS32 (getParam rlvCmd) with
  | None => (FailedParam, sent)
  | Some nChannel =>
      if negb (isValidReplyChannel nChannel
                 (String.eqb (getObjectID rlvCmd) agentID))
      then (FailedParam, sent)
      else
        let strReply := "" in
        let '(eRet, strReply) := pHandler rlvCmd strReply in
        let sent :=
          if negb (nChannel =? 0)%Z then sent ++ [(nChannel, strReply)]
          else sent in
        (eRet, sent)
  end.

(** [VersionReplyHandler::onCommand], for [@version] and [@versionnew]. *)
Definition VersionReplyHandler_onCommand : ReplyHandlerFunc :=
  fun rlvCmd strReply =>
    let strReply :=
      getVersion (bool_decide (Version = getBehaviourType rlvCmd)) in
    (Success, strReply).

(** [ReplyHandler<EBehaviour::VersionNum>::onCommand] *)
Definition VersionNum_onCommand : ReplyHandlerFunc :=
  fun rlvCmd strReply =>
    if negb (hasOption rlvCmd) then (Success, getVersionNum)
    else if String.eqb "impl" (getOption rlvCmd) then (Success, getVersionImplNum)
    else (FailedOption, strReply).
(** The channel a command replies on: its parameter, if that is a number
    and a valid reply channel for the issuer. *)
Definition reply_channel (rlvCmd : RlvCommand) : option Z :=
  match convertToS32 (getParam rlvCmd) with
  | Some nChannel =>
      if isValidReplyChannel nChannel (String.eqb (getObjectID rlvCmd) agentID)
      then Some nChannel else None
  | None => None
  end.

End ReplyCommands.

Section ChatCommands.
Variable World : Type.
Variable RlvCommand : Type.
Variable mkRlvCommand : string -> string -> RlvCommand.
Variable isValid isBlocked : RlvCommand -> bool.
Variable getParamType : RlvCommand -> EParamType.
Variable RlvCommand_processCommand : RlvCommand -> World -> ECmdRet * World.

(** The commands of a message, processed one after the other as commands
    of the object that spoke. *)
Definition process_all (chat : LLChat) (commands : list string) (w : World)
    : World :=
  foldl (fun w strCmd =>
           (Rlv.processCommand World RlvCommand mkRlvCommand isValid isBlocked
              getParamType RlvCommand_processCommand
              (mFromID chat) strCmd true w).2)
    w commands.
End ChatCommands.

Definition sample_setting : LLChat :=
  {| mChatType := CHAT_TYPE_OWNER; mFromID := "collar" |}.

(** *** Enabling *)

(** X11.  [setEnabled] returns the state it leaves behind, and that state is a
    latch: support is switched on by an enabling call made no later than
    [STATE_LOGIN_CLEANUP], and nothing switches it off again. *)
Theorem setEnabled_latch STATE_LOGIN_CLEANUP startup_state enable mIsEnabled :
  let '(answer, after) :=
    setEnabled STATE_LOGIN_CLEANUP startup_state enable mIsEnabled in
  answer = after /\
  after = mIsEnabled || (enable && canEnable STATE_LOGIN_CLEANUP startup_state).
Proof.
  unfold setEnabled.
  destruct mIsEnabled, enable, (canEnable STATE_LOGIN_CLEANUP startup_state);
    split; reflexivity.
Qed.

(** *** The tokenizer *)

Lemma append_cons (c : Ascii.ascii) s t : String c s +:+ t = String c (s +:+ t).
Proof. reflexivity. Qed.

Lemma append_empty_r s : s +:+ "" = s.
Proof. induction s as [|c s IH]; [done |]. by rewrite append_cons, IH. Qed.

Lemma append_snoc s c t : (s +:+ String c "") +:+ t = s +:+ String c t.
Proof. induction s as [|d s IH]; [done |]. by rewrite !append_cons, IH. Qed.

Lemma has_comma_snoc s c :
  has_comma (s +:+ String c "") = has_comma s || Ascii.eqb c ","%char.
Proof.
  induction s as [|d s IH].
  - simpl. by rewrite orb_false_r.
  - rewrite append_cons. cbn [has_comma]. by rewrite IH, orb_assoc.
Qed.

Lemma snoc_not_empty s c : s +:+ String c "" <> "".
Proof. by destruct s. Qed.

Lemma tokens_from_wellformed s : forall cur,
  has_comma cur = false ->
  Forall (fun token => token <> "" /\ has_comma token = false)
    (tokens_from cur s).
Proof.
  induction s as [|c rest IH]; intros cur Hcur; simpl.
  - destruct (String.eqb_spec cur ""); [constructor |].
    constructor; [done | constructor].
  - destruct (Ascii.eqb c ","%char) eqn:Hc.
    + apply Forall_app. split; [| by apply IH].
      destruct (String.eqb_spec cur ""); [constructor |].
      constructor; [done | constructor].
    + apply IH. by rewrite has_comma_snoc, Hcur, Hc.
Qed.

(** X12.  No command that the tokenizer hands out is empty or contains a
    comma. *)
Theorem tokens_wellformed message :
  Forall (fun token => token <> "" /\ has_comma token = false)
    (boost_tokenizer message).
Proof. by apply tokens_from_wellformed. Qed.

Lemma tokens_from_run piece : forall cur s,
  has_comma piece = false ->
  tokens_from cur (piece +:+ s) = tokens_from (cur +:+ piece) s.
Proof.
  induction piece as [|c piece IH]; intros cur s Hpiece.
  - by rewrite append_empty_r.
  - simpl in Hpiece. apply orb_false_iff in Hpiece as [Hc Hrest].
    rewrite append_cons. cbn [tokens_from]. rewrite Hc, IH by done.
    by rewrite append_snoc.
Qed.

(** X13.  Splitting undoes joining: the commands of a message are its
    comma-separated pieces, in order, the empty ones left out. *)
Theorem tokens_of_joined pieces :
  Forall (fun piece => has_comma piece = false) pieces ->
  boost_tokenizer (join_commas pieces) =
  List.filter (fun piece => negb (String.eqb piece "")) pieces.
Proof.
  unfold boost_tokenizer. induction pieces as [|piece rest IH]; intros Hfree.
  - reflexivity.
  - apply Forall_cons in Hfree as [Hpiece Hrest]. specialize (IH Hrest).
    cbn [join_commas List.filter]. rewrite tokens_from_run by done.
    change ("" +:+ piece) with piece.
    destruct rest as [|next rest'].
    + simpl. by destruct (String.eqb piece "").
    + cbn [tokens_from]. rewrite Ascii.eqb_refl, IH.
      by destruct (String.eqb piece "").
Qed.

Lemma tokens_of_joined_witness :
  boost_tokenizer (join_commas ["detach=n"; ""; "version=5"; ""]) =
  ["detach=n"; "version=5"].
Proof. apply (tokens_of_joined ["detach=n"; ""; "version=5"; ""]). by repeat constructor. Defined.

(** *** Processing one command *)

Section ProcessCommand.
Variable World : Type.
Variable RlvCommand : Type.
Variable isValid isBlocked : RlvCommand -> bool.
Variable getParamType : RlvCommand -> EParamType.
Variable RlvCommand_processCommand : RlvCommand -> World -> ECmdRet * World.

Local Abbreviation processCommand_ref :=
  (Rlv.processCommand_ref World RlvCommand isValid isBlocked getParamType
     RlvCommand_processCommand).

(** X14.  A command reaches its handler only if it is well formed, not blocked
    and of reply type; any other command leaves everything as it was and
    is answered with a failure code, bad syntax being reported before a
    block, and a block before a wrong parameter type. *)
Theorem processCommand_gate rlvCmd fromObj w :
  let '(eRet, w') := processCommand_ref rlvCmd fromObj w in
  (isValid rlvCmd = false -> eRet = FailedSyntax /\ w' = w) /\
  (isValid rlvCmd = true -> isBlocked rlvCmd = true ->
     eRet = FailedDisabled /\ w' = w) /\
  (isValid rlvCmd = true -> isBlocked rlvCmd = false ->
     getParamType rlvCmd <> ParamReply -> eRet = FailedParam /\ w' = w) /\
  (w' <> w ->
     isValid rlvCmd = true /\ isBlocked rlvCmd = false /\
     getParamType rlvCmd = ParamReply).
Proof.
  unfold Rlv.processCommand_ref.
  destruct (isValid rlvCmd), (isBlocked rlvCmd); cbn;
    try (repeat split; (done || congruence)).
  destruct (getParamType rlvCmd) eqn:Htype;
    try (repeat split; (done || congruence)).
  destruct (RlvCommand_processCommand rlvCmd w) as [eRet w'].
  repeat split; (done || congruence).
Qed.

(** X15.  The assertion [RLV_ASSERT(ECmdRet::Unknown != eRet)] holds as long as
    no command handler answers [Unknown]. *)
Theorem processCommand_never_Unknown rlvCmd fromObj w :
  (forall cmd w0, (RlvCommand_processCommand cmd w0).1 <> Unknown) ->
  (processCommand_ref rlvCmd fromObj w).1 <> Unknown.
Proof.
  intros Hhandlers. unfold Rlv.processCommand_ref.
  destruct (isValid rlvCmd); [| discriminate].
  destruct (isBlocked rlvCmd); [discriminate |].
  destruct (getParamType rlvCmd); try discriminate. apply Hhandlers.
Qed.
End ProcessCommand.

Lemma processCommand_never_Unknown_witness :
  (Rlv.processCommand_ref (list string) string (fun _ => true) (fun _ => false)
     (fun _ => ParamReply) (fun cmd w => (Success, w ++ [cmd]))
     "version=1" true []).1 <> Unknown.
Proof.
  apply (processCommand_never_Unknown (list string) string).
  intros cmd w0. discriminate.
Defined.

(** *** Reply commands *)

Section ReplyFacts.
Variable RlvCommand : Type.
Variable getParam getOption getObjectID : RlvCommand -> string.
Variable hasOption : RlvCommand -> bool.
Variable agentID : string.
Variable convertToS32 : string -> option Z.
Variable isValidReplyChannel : Z -> bool -> bool.
Variable getVersionNum getVersionImplNum : string.

Local Abbreviation Reply_processCommand :=
  (RlvCommands.Reply_processCommand RlvCommand getParam getObjectID agentID
     convertToS32 isValidReplyChannel).
Local Abbreviation VersionNum_onCommand :=
  (RlvCommands.VersionNum_onCommand RlvCommand getOption hasOption
     getVersionNum getVersionImplNum).
Local Abbreviation reply_channel :=
  (RlvCommands.reply_channel RlvCommand getParam getObjectID agentID
     convertToS32 isValidReplyChannel).

(** A reply command without a valid channel fails with [FailedParam], its
    handler's answer notwithstanding, and sends nothing; with a valid
    channel the handler's code is returned and, unless the channel is 0,
    exactly one reply is sent on it, whether the handler succeeded or
    not. *)
Lemma reply_sent_whatever_the_outcome rlvCmd
    (pHandler : ReplyHandlerFunc RlvCommand) sent :
  let '(eRet, sent') := Reply_processCommand rlvCmd pHandler sent in
  match reply_channel rlvCmd with
  | None => eRet = FailedParam /\ sent' = sent
  | Some nChannel =>
      eRet = (pHandler rlvCmd "").1 /\
      sent' = if decide (nChannel = 0%Z) then sent
              else sent ++ [(nChannel, (pHandler rlvCmd "").2)]
  end.
Proof.
  unfold RlvCommands.Reply_processCommand, RlvCommands.reply_channel.
  destruct (convertToS32 (getParam rlvCmd)) as [nChannel |]; [| done].
  destruct (isValidReplyChannel nChannel _); cbn [negb]; [| done].
  destruct (pHandler rlvCmd "") as [eRet strReply]. cbn [fst snd].
  split; [done |].
  destruct (Z.eqb_spec nChannel 0); cbn [negb];
    destruct (decide (nChannel = 0%Z)); done.
Qed.

(** X16.  [@versionnum] on a valid channel other than 0 always sends one reply:
    the version number, the implementation's number for the option
    ["impl"], and for any other option the empty string, together with
    the code [FailedOption]. *)
Theorem versionnum_always_replies rlvCmd nChannel sent :
  reply_channel rlvCmd = Some nChannel -> nChannel <> 0%Z ->
  Reply_processCommand rlvCmd VersionNum_onCommand sent =
  if negb (hasOption rlvCmd)
  then (Success, sent ++ [(nChannel, getVersionNum)])
  else if String.eqb "impl" (getOption rlvCmd)
  then (Success, sent ++ [(nChannel, getVersionImplNum)])
  else (FailedOption, sent ++ [(nChannel, "")]).
Proof.
  intros Hchannel Hnonzero.
  pose proof (reply_sent_whatever_the_outcome rlvCmd VersionNum_onCommand sent)
    as Hsent.
  destruct (Reply_processCommand rlvCmd VersionNum_onCommand sent)
    as [eRet sent'].
  rewrite Hchannel in Hsent. destruct Hsent as [-> ->].
  rewrite decide_False by done. unfold RlvCommands.VersionNum_onCommand.
  destruct (hasOption rlvCmd); cbn [negb]; [| done].
  by destruct (String.eqb "impl" (getOption rlvCmd)).
Qed.
End ReplyFacts.

Lemma versionnum_always_replies_witness :
  RlvCommands.Reply_processCommand (string * string) snd (fun _ => "obj") "me"
    (fun param => if String.eqb param "77" then Some 77%Z else None)
    (fun ch _ => (0 <? ch)%Z)
    ("bogus", "77")
    (RlvCommands.VersionNum_onCommand (string * string) fst (fun _ => true)
       "4010000" "1000000")
    [] = (FailedOption, [(77%Z, "")]).
Proof.
  apply (versionnum_always_replies (string * string) snd fst (fun _ => "obj")
           (fun _ => true) "me"
           (fun param => if String.eqb param "77" then Some 77%Z else None)
           (fun ch _ => (0 <? ch)%Z) "4010000" "1000000" ("bogus", "77") 77%Z []).
  - reflexivity.
  - discriminate.
Defined.

(** *** Owner chat, once accepted *)

Section ChatFacts.
Variable World : Type.
Variable CmdPrefix : Ascii.ascii.
Variable enable_temp_attach : bool.
Variable toLower : string -> string.
Variable RlvCommand : Type.
Variable mkRlvCommand : string -> string -> RlvCommand.
Variable isValid isBlocked : RlvCommand -> bool.
Variable getParamType : RlvCommand -> EParamType.
Variable RlvCommand_processCommand : RlvCommand -> World -> ECmdRet * World.
Variable CommandDbgOut : Type.
Variable mkCommandDbgOut : string -> CommandDbgOut.
Variable CommandDbgOut_add : CommandDbgOut -> string -> ECmdRet -> CommandDbgOut.
Variable CommandDbgOut_get : CommandDbgOut -> string.

Local Abbreviation processCommand :=
  (Rlv.processCommand World RlvCommand mkRlvCommand isValid isBlocked
     getParamType RlvCommand_processCommand).
Local Abbreviation process_all :=
  (RlvCommands.process_all World RlvCommand mkRlvCommand isValid isBlocked
     getParamType RlvCommand_processCommand).
Local Abbreviation run_tokens show hide :=
  (Rlv.run_tokens World show hide RlvCommand mkRlvCommand isValid isBlocked
     getParamType RlvCommand_processCommand CommandDbgOut CommandDbgOut_add).
Local Abbreviation handleSimulatorChat show hide :=
  (Rlv.handleSimulatorChat World CmdPrefix enable_temp_attach show hide
     toLower RlvCommand mkRlvCommand isValid isBlocked getParamType
     RlvCommand_processCommand CommandDbgOut mkCommandDbgOut
     CommandDbgOut_add CommandDbgOut_get).

Lemma run_tokens_world show hide chat tokens : forall cmdDbgOut w,
  (run_tokens show hide chat tokens cmdDbgOut w).2 = process_all chat tokens w.
Proof.
  induction tokens as [|strCmd rest IH]; intros cmdDbgOut w; [reflexivity |].
  cbn [Rlv.run_tokens RlvCommands.process_all foldl].
  destruct (processCommand (mFromID chat) strCmd true w) as [eRet w'].
  apply IH.
Qed.

Lemma run_tokens_quiet hide chat tokens : forall cmdDbgOut w,
  (run_tokens false hide chat tokens cmdDbgOut w).1 = cmdDbgOut.
Proof.
  induction tokens as [|strCmd rest IH]; intros cmdDbgOut w; [reflexivity |].
  cbn [Rlv.run_tokens].
  destruct (processCommand (mFromID chat) strCmd true w) as [eRet w'].
  cbn [andb]. apply IH.
Qed.

(** X17.  An accepted message has each of its commands processed once, in order:
    the commands are the tokens of the message without its prefix, in
    lower case.  The debug settings decide only what the message is
    replaced with, never what is processed; with debug output off the
    replacement is the output of a [CommandDbgOut] nothing was added to. *)
Theorem handleSimulatorChat_processes_tokens show hide message chat chatObj w :
  Rlv.not_a_command CmdPrefix enable_temp_attach message chat chatObj = false ->
  let commands := boost_tokenizer (toLower (erase_first message)) in
  (handleSimulatorChat show hide message chat chatObj w).1.1 = true /\
  (handleSimulatorChat show hide message chat chatObj w).2 =
    process_all chat commands w /\
  (handleSimulatorChat false hide message chat chatObj w).1.2 =
    CommandDbgOut_get (mkCommandDbgOut (toLower (erase_first message))).
Proof.
  intros Haccepted commands. unfold Rlv.handleSimulatorChat.
  rewrite Haccepted. fold commands.
  pose proof (run_tokens_world show hide chat commands
                (mkCommandDbgOut (toLower (erase_first message))) w) as Hworld.
  pose proof (run_tokens_quiet hide chat commands
                (mkCommandDbgOut (toLower (erase_first message))) w) as Hquiet.
  destruct (run_tokens show hide chat commands _ w) as [out w'].
  destruct (run_tokens false hide chat commands _ w) as [out0 w0].
  cbn [fst snd] in *. by subst.
Qed.
End ChatFacts.

Lemma handleSimulatorChat_processes_tokens_witness :
  demo "@Version=1,,GetStatus=2" sample_setting None =
  (true, "Version=1,,GetStatus=2", ["Version=1"; "GetStatus=2"]).
Proof.
  pose proof (handleSimulatorChat_processes_tokens (list string) "@"%char false
                (fun s => s) string (fun _ cmd => cmd)
                (fun cmd => match String.index 0 "=" cmd with
                            | Some _ => true | None => false end)
                (fun _ => false) (fun _ => ParamReply)
                (fun cmd w => (Success, w ++ [cmd]))
                string (fun s => s) (fun out _ _ => out) (fun out => out)
                false false "@Version=1,,GetStatus=2" sample_setting None []
                eq_refl) as (Hflag & Hworld & Hmessage).
  unfold demo.
  destruct (Rlv.handleSimulatorChat _ _ _ _ _ _ _ _ _ _ _ _ _ _ _ _ _ _ _ _)
    as [[flag message] world].
  cbn [fst snd] in *. by subst.
Defined.
End RlvCommands.

(** ** llcoros.h: the consuming flag and its guard *)

Module ConsumingGuard.
Import LLCoros.

(** Modelled from the spec: [set_consuming] and [get_consuming] are defined
    in [llcoros.cpp], outside the files covered here; they write and read
    the "set_consuming() state" [mConsuming] of the running coroutine's
    [CoroData]. *)
Definition set_consuming (consuming : bool) (current : CoroData) : CoroData :=
  {| mName := mName current; mConsuming := consuming;
     mKilledBy := mKilledBy current; mStatus := mStatus current;
     mCreationTime := mCreationTime current |}.

Definition get_consuming (current : CoroData) : bool := mConsuming current.

(** [class OverrideConsuming], "RAII control of the consuming flag". *)
Record OverrideConsuming : Type := { mPrevConsuming : bool }.

(** [OverrideConsuming(bool consuming)] *)
Definition OverrideConsuming_ctor (consuming : bool) (current : CoroData)
    : OverrideConsuming * CoroData :=
  let self := {| mPrevConsuming := get_consuming current |} in
  (self, set_consuming consuming current).

(** [~OverrideConsuming()] *)
Definition OverrideConsuming_dtor (self : OverrideConsuming)
    (current : CoroData) : CoroData :=
  set_consuming (mPrevConsuming self) current.

(** A block [{ OverrideConsuming oc(consuming); body }]; the destructor
    runs however the block is left. *)
Definition with_OverrideConsuming {A : Type} (consuming : bool)
    (body : CoroData -> result A * CoroData) (current : CoroData)
    : result A * CoroData :=
  let '(oc, current) := OverrideConsuming_ctor consuming current in
  let '(res, current) := body current in
  (res, OverrideConsuming_dtor oc current).

(** X18.  The guard sets the flag for the body and puts the earlier value back
    when the block is left, by return or by exception, whatever the body
    did to the flag; it touches nothing else, so that a status guard and a
    consuming guard nested in either order restore both the status and the
    flag. *)
Theorem OverrideConsuming_restores {A : Type} (consuming : bool)
    (body : CoroData -> result A * CoroData) (current : CoroData) :
  let inside := set_consuming consuming current in
  get_consuming inside = consuming /\
  (with_OverrideConsuming consuming body current).1 = (body inside).1 /\
  get_consuming (with_OverrideConsuming consuming body current).2 =
    get_consuming current /\
  getStatus (with_OverrideConsuming consuming body current).2 =
    getStatus (body inside).2 /\
  (forall status,
     let both :=
       with_TempStatus status (with_OverrideConsuming consuming body) current in
     let other :=
       with_OverrideConsuming consuming (with_TempStatus status body) current in
     get_consuming both.2 = get_consuming current /\
     getStatus both.2 = getStatus current /\
     get_consuming other.2 = get_consuming current /\
     getStatus other.2 = getStatus current /\
     both.1 = (body (setStatus status inside)).1 /\
     other.1 = (body (setStatus status inside)).1).
Proof.
  intros inside. split; [reflexivity |].
  unfold with_OverrideConsuming, OverrideConsuming_ctor. fold inside.
  split; [by destruct (body inside) |].
  split; [by destruct (body inside) |].
  split; [by destruct (body inside) |].
  intros status. cbv zeta.
  unfold with_TempStatus, with_OverrideConsuming, TempStatus_ctor,
    OverrideConsuming_ctor.
  change (set_consuming consuming (setStatus status current))
    with (setStatus status inside).
  change (setStatus status (set_consuming consuming current))
    with (setStatus status inside).
  destruct (body (setStatus status inside)) as [res after].
  repeat split.
Qed.

(** The flag comes back even when the body changed it and then threw. *)
Example OverrideConsuming_unwinds :
  with_OverrideConsuming true
    (fun c => (Raise boom : result unit, set_consuming false (setStatus "lost" c)))
    idle =
  (Raise boom, setStatus "lost" idle).
Proof. reflexivity. Qed.
End ConsumingGuard.
